(** * react-orbit: the synchronisation coordinator and the minimal text diff

    A shallow embedding of [src/react/useOrbitText.ts], [src/core/store.ts],
    [src/sync/tab-sync.ts] and [src/react/collaboration/useOrbitStatus.ts],
    with the properties of the specification stated over it. *)

From Stdlib Require Import ZArith Lia.
From stdpp Require Import base decidable list strings gmap.

Local Open Scope Z_scope.

(** ** The minimal text diff of [useOrbitText] *)

Module TextDiff.

Section diff.
(** A JavaScript string is a sequence of UTF-16 code units; [A] is the
    type of code units, compared with [===]. *)
Context {A : Type} `{EqDecision A}.

Definition len (s : list A) : Z := Z.of_nat (length s).

(** [s[i]]: [undefined] (here [None]) outside of the string. *)
Definition charAt (s : list A) (i : Z) : option A :=
  if decide (0 <= i) then s !! Z.to_nat i else None.

(** [String.prototype.slice]: a negative index counts from the end, and
    both indices are clamped to the string. *)
Definition sliceIndex (n i : Z) : Z :=
  if decide (i < 0) then Z.max (n + i) 0 else Z.min i n.

Definition slice (s : list A) (from to : Z) : list A :=
  let from' := sliceIndex (len s) from in
  let to' := sliceIndex (len s) to in
  take (Z.to_nat (to' - from')) (drop (Z.to_nat from') s).

(** The content of a [Y.Text] seen by one replica, and its two positional
    primitives. *)
Definition ytextDelete (index length : Z) (t : list A) : list A :=
  take (Z.to_nat index) t ++ drop (Z.to_nat (index + length)) t.

Definition ytextInsert (index : Z) (text t : list A) : list A :=
  take (Z.to_nat index) t ++ text ++ drop (Z.to_nat index) t.

Inductive TextOp : Type :=
| OpDelete (index length : Z)
| OpInsert (index : Z) (text : list A).

Definition applyOp (op : TextOp) (t : list A) : list A :=
  match op with
  | OpDelete i n => ytextDelete i n t
  | OpInsert i s => ytextInsert i s t
  end.

(** The operations of one transaction, in the order they are issued. *)
Definition applyOps (ops : list TextOp) (t : list A) : list A :=
  foldl (fun acc op => applyOp op acc) t ops.

(** The guard of the first [while] loop. *)
Definition prefixCond (oldText newText : list A) (commonPrefix : Z) : bool :=
  bool_decide (commonPrefix < len oldText)
  && bool_decide (commonPrefix < len newText)
  && bool_decide (charAt oldText commonPrefix = charAt newText commonPrefix).

Fixpoint prefixLoop (fuel : nat) (oldText newText : list A)
    (commonPrefix : Z) : Z :=
  match fuel with
  | O => commonPrefix
  | S fuel' =>
      if prefixCond oldText newText commonPrefix
      then prefixLoop fuel' oldText newText (commonPrefix + 1)
      else commonPrefix
  end.

(** The guard of the second [while] loop. *)
Definition suffixCond (oldText newText : list A)
    (commonPrefix commonSuffix : Z) : bool :=
  bool_decide (commonSuffix < len oldText - commonPrefix)
  && bool_decide (commonSuffix < len newText - commonPrefix)
  && bool_decide (charAt oldText (len oldText - 1 - commonSuffix)
                  = charAt newText (len newText - 1 - commonSuffix)).

Fixpoint suffixLoop (fuel : nat) (oldText newText : list A)
    (commonPrefix commonSuffix : Z) : Z :=
  match fuel with
  | O => commonSuffix
  | S fuel' =>
      if suffixCond oldText newText commonPrefix commonSuffix
      then suffixLoop fuel' oldText newText commonPrefix (commonSuffix + 1)
      else commonSuffix
  end.

(** Each iteration moves the counter one step towards [oldText.length], so
    [length oldText] iterations are enough for either loop. *)
Definition commonPrefixOf (oldText newText : list A) : Z :=
  prefixLoop (length oldText) oldText newText 0.

Definition commonSuffixOf (oldText newText : list A) (commonPrefix : Z) : Z :=
  suffixLoop (length oldText) oldText newText commonPrefix 0.

(** The body of the [transact] callback. *)
Definition transactionOps (oldText newText : list A)
    (commonPrefix commonSuffix : Z) : list TextOp :=
  (if decide (commonPrefix + commonSuffix < len oldText)
   then [OpDelete commonPrefix (len oldText - commonPrefix - commonSuffix)]
   else [])
  ++
  (if decide (commonPrefix + commonSuffix < len newText)
   then [OpInsert commonPrefix
           (slice newText commonPrefix (len newText - commonSuffix))]
   else []).

(** [setOrbitText newText] when the text holds [oldText]: [None] when it
    returns before [transact], [Some ops] for one transaction issuing
    [ops]. *)
Definition setOrbitText (oldText newText : list A) : option (list TextOp) :=
  if decide (oldText = newText) then None
  else
    let commonPrefix := commonPrefixOf oldText newText in
    let commonSuffix := commonSuffixOf oldText newText commonPrefix in
    Some (transactionOps oldText newText commonPrefix commonSuffix).

(** The text after the call. *)
Definition runSetOrbitText (newText ytext : list A) : list A :=
  match setOrbitText ytext newText with
  | None => ytext
  | Some ops => applyOps ops ytext
  end.

(** The mount effect and the snapshot of the hook. *)
Definition mountEffect (initialValue ytext : list A) : list A :=
  if decide (len ytext = 0 /\ len initialValue > 0)
  then ytextInsert 0 initialValue ytext
  else ytext.

Definition getSnapshot (initialValue ytext : list A) : list A :=
  if decide (len ytext > 0) then ytext else initialValue.



End diff.

(** The code units of a string literal. *)
Definition str (s : string) : list Ascii.ascii :=
  String.list_ascii_of_string s.

End TextDiff.

(** ** The store, its document and its synchronisation channels *)

Module Orbit.

(** *** The replicated document

    Yjs is used through [Y.Doc], [Y.applyUpdate], [Y.encodeStateAsUpdate]
    and the [update] event. A document is seen as the set of the items it
    has integrated, an update as a set of items; integrating is a union,
    and the [update] event is emitted only when something new was
    integrated. *)

Definition Update : Type := gset nat.

(** The origin of a transaction: none was given, or a [TabSync] instance. *)
Inductive Origin : Type :=
| OriginNone
| OriginTabSync (instance : nat).

#[global] Instance Origin_eq_dec : EqDecision Origin.
Proof. solve_decision. Defined.

(** The functions registered with [ydoc.on("update", ...)]: the bound
    [handleUpdate] of the store, and the closures made by [TabSync.init]. *)
Inductive Observer : Type :=
| ObsPersist
| ObsTabSync (closure : nat).

#[global] Instance Observer_eq_dec : EqDecision Observer.
Proof. solve_decision. Defined.

Record Doc : Type := mkDoc {
  items : gset nat;
  observers : list Observer
}.

Definition newDoc : Doc := {| items := ∅; observers := [] |}.

Definition encodeStateAsUpdate (d : Doc) : Update := items d.

(** The observers of an event are a [Set]: adding one twice changes
    nothing. *)
Definition docOn (h : Observer) (d : Doc) : Doc :=
  if decide (h ∈ observers d) then d
  else {| items := items d; observers := observers d ++ [h] |}.

Definition docOff (h : Observer) (d : Doc) : Doc :=
  {| items := items d;
     observers := filter (fun h' => h' <> h) (observers d) |}.

Definition docDestroy (d : Doc) : Doc :=
  {| items := items d; observers := [] |}.

Definition integrate (u : Update) (d : Doc) : Doc :=
  {| items := items d ∪ u; observers := observers d |}.

(** *** Messages, channels and the network provider *)

Record SyncMessage : Type := mkMessage {
  msgType : string;
  msgStoreId : string;
  msgUpdate : Update
}.

Record TabSync : Type := mkTabSync {
  tsSelf : nat;
  tsStoreId : string;
  updateHandler : option nat;
  onmessage : bool;
  channelClosed : bool
}.

(** The part of y-websocket's provider the store and the status hook use:
    the auto-reconnect flag and the two connection flags. *)
Record WebsocketProvider : Type := mkProvider {
  shouldConnect : bool;
  wsconnected : bool;
  wsconnecting : bool;
  maxBackoffTime : Z
}.

Record WebsocketOptions : Type := mkWebsocketOptions {
  maxFailures : option Z;
  retryDelay : option Z
}.

Record OrbitConfig : Type := mkConfig {
  cfgStoreId : string;
  cfgStorage : bool;
  cfgEnableTabSync : option bool;
  cfgPersistDebounceMs : option Z;
  cfgWebsocketUrl : option string;
  cfgWebsocketOptions : option WebsocketOptions
}.

Record OrbitStore : Type := mkStore {
  ydoc : Doc;
  storage : bool;
  tabSync : option TabSync;
  websocketProvider : option WebsocketProvider;
  persistDebounceMs : Z;
  persistTimer : option nat;
  initialized : bool;
  websocketFailures : Z;
  maxWebsocketFailures : Z;
  storeId : string;
  statusListeners : list nat
}.

(** What the store does to its collaborators, in order. *)
Inductive Event : Type :=
| EvLoad (documentId : string)
| EvSave (documentId : string) (state : Update)
| EvStorageDispose
| EvApply (update : Update) (origin : Origin)
| EvPost (message : SyncMessage)
| EvChannelClose
| EvSetTimeout (id : nat) (ms : Z)
| EvClearTimeout (id : nat)
| EvConnect
| EvDisconnect
| EvProviderDestroy
| EvNotify (listener : nat) (status : string)
| EvDocDestroy.

(** The store together with the timers of the event loop and the trace of
    events. *)
Record World : Type := mkWorld {
  store : OrbitStore;
  timers : list nat;
  nextTimer : nat;
  nextClosure : nat;
  trace : list Event
}.

Definition withStore (f : OrbitStore -> OrbitStore) (w : World) : World :=
  {| store := f (store w); timers := timers w; nextTimer := nextTimer w;
     nextClosure := nextClosure w; trace := trace w |}.

Definition log (e : Event) (w : World) : World :=
  {| store := store w; timers := timers w; nextTimer := nextTimer w;
     nextClosure := nextClosure w; trace := trace w ++ [e] |}.

Definition setYdoc (d : Doc) (s : OrbitStore) : OrbitStore :=
  {| ydoc := d; storage := storage s; tabSync := tabSync s;
     websocketProvider := websocketProvider s;
     persistDebounceMs := persistDebounceMs s;
     persistTimer := persistTimer s; initialized := initialized s;
     websocketFailures := websocketFailures s;
     maxWebsocketFailures := maxWebsocketFailures s; storeId := storeId s;
     statusListeners := statusListeners s |}.

Definition setTabSync (t : option TabSync) (s : OrbitStore) : OrbitStore :=
  {| ydoc := ydoc s; storage := storage s; tabSync := t;
     websocketProvider := websocketProvider s;
     persistDebounceMs := persistDebounceMs s;
     persistTimer := persistTimer s; initialized := initialized s;
     websocketFailures := websocketFailures s;
     maxWebsocketFailures := maxWebsocketFailures s; storeId := storeId s;
     statusListeners := statusListeners s |}.

Definition setWebsocketProvider (p : option WebsocketProvider)
    (s : OrbitStore) : OrbitStore :=
  {| ydoc := ydoc s; storage := storage s; tabSync := tabSync s;
     websocketProvider := p;
     persistDebounceMs := persistDebounceMs s;
     persistTimer := persistTimer s; initialized := initialized s;
     websocketFailures := websocketFailures s;
     maxWebsocketFailures := maxWebsocketFailures s; storeId := storeId s;
     statusListeners := statusListeners s |}.

Definition setPersistTimer (t : option nat) (s : OrbitStore) : OrbitStore :=
  {| ydoc := ydoc s; storage := storage s; tabSync := tabSync s;
     websocketProvider := websocketProvider s;
     persistDebounceMs := persistDebounceMs s;
     persistTimer := t; initialized := initialized s;
     websocketFailures := websocketFailures s;
     maxWebsocketFailures := maxWebsocketFailures s; storeId := storeId s;
     statusListeners := statusListeners s |}.

Definition setInitialized (b : bool) (s : OrbitStore) : OrbitStore :=
  {| ydoc := ydoc s; storage := storage s; tabSync := tabSync s;
     websocketProvider := websocketProvider s;
     persistDebounceMs := persistDebounceMs s;
     persistTimer := persistTimer s; initialized := b;
     websocketFailures := websocketFailures s;
     maxWebsocketFailures := maxWebsocketFailures s; storeId := storeId s;
     statusListeners := statusListeners s |}.

Definition setWebsocketFailures (n : Z) (s : OrbitStore) : OrbitStore :=
  {| ydoc := ydoc s; storage := storage s; tabSync := tabSync s;
     websocketProvider := websocketProvider s;
     persistDebounceMs := persistDebounceMs s;
     persistTimer := persistTimer s; initialized := initialized s;
     websocketFailures := n;
     maxWebsocketFailures := maxWebsocketFailures s; storeId := storeId s;
     statusListeners := statusListeners s |}.

Definition setStatusListeners (l : list nat) (s : OrbitStore) : OrbitStore :=
  {| ydoc := ydoc s; storage := storage s; tabSync := tabSync s;
     websocketProvider := websocketProvider s;
     persistDebounceMs := persistDebounceMs s;
     persistTimer := persistTimer s; initialized := initialized s;
     websocketFailures := websocketFailures s;
     maxWebsocketFailures := maxWebsocketFailures s; storeId := storeId s;
     statusListeners := l |}.

(** *** Timers *)

Definition setTimeout (ms : Z) (w : World) : nat * World :=
  let id := nextTimer w in
  (id,
   {| store := store w; timers := timers w ++ [id];
      nextTimer := S id; nextClosure := nextClosure w;
      trace := trace w ++ [EvSetTimeout id ms] |}).

Definition clearTimeout (id : nat) (w : World) : World :=
  {| store := store w; timers := filter (fun t => t <> id) (timers w);
     nextTimer := nextTimer w; nextClosure := nextClosure w;
     trace := trace w ++ [EvClearTimeout id] |}.

(** *** [OrbitStore.persist] and [OrbitStore.handleUpdate] *)

Definition persist (w : World) : World :=
  if storage (store w)
  then log (EvSave (storeId (store w)) (encodeStateAsUpdate (ydoc (store w)))) w
  else w.

Definition handleUpdate (w : World) : World :=
  let w1 := match persistTimer (store w) with
            | Some t => clearTimeout t w
            | None => w
            end in
  let '(t, w2) := setTimeout (persistDebounceMs (store w1)) w1 in
  withStore (setPersistTimer (Some t)) w2.

(** The callback of the debounce timer, when the event loop runs it. *)
Definition fireTimer (id : nat) (w : World) : World :=
  if decide (id ∈ timers w)
  then persist
         {| store := store w; timers := filter (fun t => t <> id) (timers w);
            nextTimer := nextTimer w; nextClosure := nextClosure w;
            trace := trace w |}
  else w.

(** *** [TabSync] *)

Definition broadcastUpdate (t : TabSync) (update : Update) (w : World) : World :=
  log (EvPost {| msgType := "update"; msgStoreId := tsStoreId t;
                 msgUpdate := update |}) w.

(** The closure [updateHandler] of [TabSync.init]. *)
Definition tabUpdateHandler (t : TabSync) (update : Update) (origin : Origin)
    (w : World) : World :=
  if decide (origin <> OriginTabSync (tsSelf t))
  then broadcastUpdate t update w
  else w.

Definition runObserver (h : Observer) (update : Update) (origin : Origin)
    (w : World) : World :=
  match h with
  | ObsPersist => handleUpdate w
  | ObsTabSync _ =>
      match tabSync (store w) with
      | Some t => tabUpdateHandler t update origin w
      | None => w
      end
  end.

(** A transaction on the document that integrates [update]: the observers
    registered when it ends are called, in order, if it brought something
    new. *)
Definition transact (update : Update) (origin : Origin) (w : World) : World :=
  let d := ydoc (store w) in
  let w1 := withStore (setYdoc (integrate update d)) w in
  if decide (update ⊆ items d) then w1
  else foldl (fun acc h => runObserver h (update ∖ items d) origin acc)
         w1 (observers d).

Definition applyUpdate (update : Update) (origin : Origin) (w : World) : World :=
  transact update origin (log (EvApply update origin) w).

(** A write of the consumer through a map, a text or an array of the
    document. *)
Definition localWrite (update : Update) (w : World) : World :=
  transact update OriginNone w.

Definition tabSyncInit (w : World) : World :=
  match tabSync (store w) with
  | None => w
  | Some t =>
      let c := nextClosure w in
      let t' := {| tsSelf := tsSelf t; tsStoreId := tsStoreId t;
                   updateHandler := Some c; onmessage := true;
                   channelClosed := channelClosed t |} in
      {| store := setYdoc (docOn (ObsTabSync c) (ydoc (store w)))
                    (setTabSync (Some t') (store w));
         timers := timers w; nextTimer := nextTimer w;
         nextClosure := S c; trace := trace w |}
  end.

(** [channel.onmessage], when a message is delivered to this instance. *)
Definition tabOnMessage (message : SyncMessage) (w : World) : World :=
  match tabSync (store w) with
  | None => w
  | Some t =>
      if onmessage t && negb (channelClosed t) then
        if decide (msgType message = "update"
                   /\ msgStoreId message = tsStoreId t)
        then applyUpdate (msgUpdate message) (OriginTabSync (tsSelf t)) w
        else w
      else w
  end.

Definition tabSyncDispose (w : World) : World :=
  match tabSync (store w) with
  | None => w
  | Some t =>
      let d := match updateHandler t with
               | Some c => docOff (ObsTabSync c) (ydoc (store w))
               | None => ydoc (store w)
               end in
      let t' := {| tsSelf := tsSelf t; tsStoreId := tsStoreId t;
                   updateHandler := None; onmessage := onmessage t;
                   channelClosed := true |} in
      log EvChannelClose
        (withStore (fun s => setYdoc d (setTabSync (Some t') s)) w)
  end.

(** *** The network provider *)

(** [connect()] and [disconnect()] set and clear the auto-reconnect flag;
    the connection flags follow the socket, with the [status] events. *)
Definition providerConnect (w : World) : World :=
  match websocketProvider (store w) with
  | None => w
  | Some p =>
      log EvConnect
        (withStore (setWebsocketProvider
                      (Some {| shouldConnect := true;
                               wsconnected := wsconnected p;
                               wsconnecting := wsconnecting p;
                               maxBackoffTime := maxBackoffTime p |})) w)
  end.

Definition providerDisconnect (w : World) : World :=
  match websocketProvider (store w) with
  | None => w
  | Some p =>
      log EvDisconnect
        (withStore (setWebsocketProvider
                      (Some {| shouldConnect := false;
                               wsconnected := wsconnected p;
                               wsconnecting := wsconnecting p;
                               maxBackoffTime := maxBackoffTime p |})) w)
  end.

Definition setShouldConnect (b : bool) (w : World) : World :=
  match websocketProvider (store w) with
  | None => w
  | Some p =>
      withStore (setWebsocketProvider
                   (Some {| shouldConnect := b;
                            wsconnected := wsconnected p;
                            wsconnecting := wsconnecting p;
                            maxBackoffTime := maxBackoffTime p |})) w
  end.

(** The reconnect timer of the provider: it makes a new connect attempt
    only while the auto-reconnect flag is set. *)
Definition providerReconnect (w : World) : World :=
  match websocketProvider (store w) with
  | None => w
  | Some p => if shouldConnect p then log EvConnect w else w
  end.

(** *** Status listeners and the circuit breaker *)

Definition onStatusChange (listener : nat) (w : World) : World :=
  if decide (listener ∈ statusListeners (store w)) then w
  else withStore (setStatusListeners
                    (statusListeners (store w) ++ [listener])) w.

Definition offStatusChange (listener : nat) (w : World) : World :=
  withStore (setStatusListeners
               (filter (fun l => l <> listener) (statusListeners (store w)))) w.

Definition notifyAll (status : string) (w : World) : World :=
  foldl (fun acc l => log (EvNotify l status) acc) w
    (statusListeners (store w)).

(** The handler of the provider's [status] event. *)
Definition onStatus (status : string) (w : World) : World :=
  let w1 := if decide (status = "connected")
            then withStore (setWebsocketFailures 0) w
            else w in
  notifyAll status w1.

(** The handler of the provider's [connection-error] event. *)
Definition onConnectionError (w : World) : World :=
  let w1 := withStore (fun s => setWebsocketFailures
                                  (websocketFailures s + 1) s) w in
  if decide (websocketFailures (store w1) >= maxWebsocketFailures (store w1))
  then
    match websocketProvider (store w1) with
    | Some _ =>
        notifyAll "disconnected" (providerDisconnect (setShouldConnect false w1))
    | None => w1
    end
  else w1.

(** What the network can do to the store: the two events the constructor
    subscribes to in [setupWebSocketErrorHandlers], which it does exactly
    when there is a provider, and the reconnect timer. The provider sets its
    flags before it emits [status]. *)
Inductive NetEvent : Type :=
| NetStatus (status : string)
| NetConnectionError
| NetReconnectTimer.

Definition providerFlags (status : string) (w : World) : World :=
  match websocketProvider (store w) with
  | None => w
  | Some p =>
      if decide (status = "connected") then
        withStore (setWebsocketProvider
                     (Some {| shouldConnect := shouldConnect p;
                              wsconnected := true; wsconnecting := false;
                              maxBackoffTime := maxBackoffTime p |})) w
      else if decide (status = "connecting") then
        withStore (setWebsocketProvider
                     (Some {| shouldConnect := shouldConnect p;
                              wsconnected := false; wsconnecting := true;
                              maxBackoffTime := maxBackoffTime p |})) w
      else if decide (status = "disconnected") then
        withStore (setWebsocketProvider
                     (Some {| shouldConnect := shouldConnect p;
                              wsconnected := false; wsconnecting := false;
                              maxBackoffTime := maxBackoffTime p |})) w
      else w
  end.

Definition netStep (e : NetEvent) (w : World) : World :=
  match websocketProvider (store w) with
  | None => w
  | Some _ =>
      match e with
      | NetStatus status => onStatus status (providerFlags status w)
      | NetConnectionError => onConnectionError w
      | NetReconnectTimer => providerReconnect w
      end
  end.

Definition netRun (es : list NetEvent) (w : World) : World :=
  foldl (fun acc e => netStep e acc) w es.

(** *** The constructor *)

Definition newStoreAt (self : nat) (config : OrbitConfig) : World :=
  let doc0 := newDoc in
  let tab :=
    if decide (cfgEnableTabSync config <> Some false)
    then Some {| tsSelf := self; tsStoreId := cfgStoreId config;
                 updateHandler := None; onmessage := false;
                 channelClosed := false |}
    else None in
  let provider :=
    match cfgWebsocketUrl config with
    | Some _ =>
        Some {| shouldConnect := false; wsconnected := false;
                wsconnecting := false;
                maxBackoffTime :=
                  default 3000 (cfgWebsocketOptions config ≫= retryDelay) |}
    | None => None
    end in
  let doc1 := if cfgStorage config then docOn ObsPersist doc0 else doc0 in
  {| store :=
       {| ydoc := doc1;
          storage := cfgStorage config;
          tabSync := tab;
          websocketProvider := provider;
          persistDebounceMs := default 300 (cfgPersistDebounceMs config);
          persistTimer := None;
          initialized := false;
          websocketFailures := 0;
          maxWebsocketFailures :=
            default 3 (cfgWebsocketOptions config ≫= maxFailures);
          storeId := cfgStoreId config;
          statusListeners := [] |};
     timers := []; nextTimer := 0%nat; nextClosure := 0%nat; trace := [] |}.

Definition newStore (config : OrbitConfig) : World := newStoreAt 0 config.

(** *** [OrbitStore.init]

    The call runs up to [await this.storage.load(...)] and, when the load
    settles with [state], from there to the end. Without a storage adapter
    there is no [await] and the call runs to its end at once. *)

Inductive InitStep : Type :=
| InitReturned
| InitAwaitingLoad.

Definition initFinish (w : World) : World :=
  let w1 := tabSyncInit w in
  let w2 := providerConnect w1 in
  withStore (setInitialized true) w2.

Definition initBegin (w : World) : InitStep * World :=
  if initialized (store w) then (InitReturned, w)
  else if storage (store w)
       then (InitAwaitingLoad, log (EvLoad (storeId (store w))) w)
       else (InitReturned, initFinish w).

Definition initResume (state : option Update) (w : World) : World :=
  let w1 := match state with
            | Some u => applyUpdate u OriginNone w
            | None => w
            end in
  initFinish w1.

(** [await store.init()] with nothing else running in between; [state] is
    what the storage adapter has for the store. *)
Definition init (state : option Update) (w : World) : World :=
  match initBegin w with
  | (InitReturned, w1) => w1
  | (InitAwaitingLoad, w1) => initResume state w1
  end.

(** *** [OrbitStore.dispose]

    [disposeBegin] runs up to [await this.persist()], [disposeTeardown]
    from there to [await this.storage.dispose()], [disposeEnd] is the
    rest. *)

Definition disposeBegin (w : World) : World :=
  let w1 := match persistTimer (store w) with
            | Some t => withStore (setPersistTimer None) (clearTimeout t w)
            | None => w
            end in
  persist w1.

Definition disposeTeardown (w : World) : World :=
  let w1 := tabSyncDispose w in
  let w2 := match websocketProvider (store w1) with
            | Some _ => log EvProviderDestroy (providerDisconnect w1)
            | None => w1
            end in
  let w3 := log EvDocDestroy
              (withStore (fun s => setYdoc (docDestroy (ydoc s)) s) w2) in
  if storage (store w3) then log EvStorageDispose w3 else w3.

Definition disposeEnd (w : World) : World :=
  withStore (setInitialized false) w.

Definition dispose (w : World) : World :=
  disposeEnd (disposeTeardown (disposeBegin w)).

(** What [dispose()] does to the collaborators of store [s] once the final
    persist has settled, in order. *)
Definition teardownEvents (s : OrbitStore) : list Event :=
  (match tabSync s with Some _ => [EvChannelClose] | None => [] end)
  ++ (match websocketProvider s with
      | Some _ => [EvDisconnect; EvProviderDestroy]
      | None => []
      end)
  ++ [EvDocDestroy]
  ++ (if storage s then [EvStorageDispose] else []).

(** *** Everything that can happen to a store *)

Inductive Op : Type :=
| OpInitBegin
| OpInitResume (state : option Update)
| OpWrite (update : Update)
| OpTabMessage (message : SyncMessage)
| OpTimer (id : nat)
| OpPersist
| OpDisposeBegin
| OpDisposeTeardown
| OpDisposeEnd
| OpNet (e : NetEvent)
| OpOnStatusChange (listener : nat)
| OpOffStatusChange (listener : nat).

Definition step (op : Op) (w : World) : World :=
  match op with
  | OpInitBegin => (initBegin w).2
  | OpInitResume state => initResume state w
  | OpWrite update => localWrite update w
  | OpTabMessage message => tabOnMessage message w
  | OpTimer id => fireTimer id w
  | OpPersist => persist w
  | OpDisposeBegin => disposeBegin w
  | OpDisposeTeardown => disposeTeardown w
  | OpDisposeEnd => disposeEnd w
  | OpNet e => netStep e w
  | OpOnStatusChange listener => onStatusChange listener w
  | OpOffStatusChange listener => offStatusChange listener w
  end.

Definition run (ops : list Op) (w : World) : World :=
  foldl (fun acc op => step op acc) w ops.

(** Every pending timer is the one the store remembers. *)
Definition timersTracked (w : World) : Prop :=
  forall t, t ∈ timers w -> persistTimer (store w) = Some t.

(** *** Reading a trace *)

Definition saveOf (e : Event) : option (string * Update) :=
  match e with EvSave id u => Some (id, u) | _ => None end.

Definition loadOf (e : Event) : option string :=
  match e with EvLoad id => Some id | _ => None end.

Definition postOf (e : Event) : option SyncMessage :=
  match e with EvPost m => Some m | _ => None end.

Definition applyOf (e : Event) : option (Update * Origin) :=
  match e with EvApply u o => Some (u, o) | _ => None end.

Definition isConnect (e : Event) : bool :=
  match e with EvConnect => true | _ => false end.

Definition isSetTimeout (e : Event) : bool :=
  match e with EvSetTimeout _ _ => true | _ => false end.

Definition saves (w : World) : list (string * Update) :=
  omap saveOf (trace w).

Definition loads (w : World) : list string := omap loadOf (trace w).

Definition posts (w : World) : list SyncMessage := omap postOf (trace w).

Definition applies (w : World) : list (Update * Origin) :=
  omap applyOf (trace w).

Definition connects (w : World) : nat :=
  length (filter (fun e => isConnect e = true) (trace w)).

Definition scheduled (w : World) : nat :=
  length (filter (fun e => isSetTimeout e = true) (trace w)).

Definition tabHandlers (w : World) : nat :=
  length (filter (fun h => h <> ObsPersist) (observers (ydoc (store w)))).

(** [w'] has the trace of [w] followed by events that all satisfy [P]. *)
Definition extends (P : Event -> Prop) (w w' : World) : Prop :=
  exists evs, trace w' = trace w ++ evs /\ Forall P evs.

(** The events of the debounce timer, and those of an update handler. *)
Definition timerEvent (e : Event) : Prop :=
  match e with EvSetTimeout _ _ | EvClearTimeout _ => True | _ => False end.

Definition handlerEvent (e : Event) : Prop :=
  match e with
  | EvSetTimeout _ _ | EvClearTimeout _ | EvPost _ => True
  | _ => False
  end.

(** Only the [persistTimer] field of the store differs. *)
Definition onlyTimer (w w' : World) : Prop :=
  store w' = setPersistTimer (persistTimer (store w')) (store w).

(** One timer is pending, and the store remembers it. *)
Definition oneTimer (w : World) : Prop :=
  exists t, timers w = [t] /\ persistTimer (store w) = Some t.

(** The breaker has tripped: the provider must not reconnect. *)
Definition breakerOpen (w : World) : Prop :=
  exists p, websocketProvider (store w) = Some p /\ shouldConnect p = false.

(** *** Configurations used in the examples *)

(** A storage adapter and tab sync, no network. *)
Definition localConfig : OrbitConfig :=
  {| cfgStoreId := "my-app"; cfgStorage := true; cfgEnableTabSync := None;
     cfgPersistDebounceMs := None; cfgWebsocketUrl := None;
     cfgWebsocketOptions := None |}.

(** A storage adapter, tab sync and a WebSocket server. *)
Definition fullConfig : OrbitConfig :=
  {| cfgStoreId := "my-app"; cfgStorage := true; cfgEnableTabSync := None;
     cfgPersistDebounceMs := None;
     cfgWebsocketUrl := Some "ws://localhost:1234";
     cfgWebsocketOptions := None |}.

(** Three initialised stores of the same [storeId] on one device. *)
Definition threeTabs : list World :=
  [init None (newStoreAt 0 localConfig);
   init None (newStoreAt 1 localConfig);
   init None (newStoreAt 2 localConfig)].

(** *** The stores of one device on the broadcast bus

    A [BroadcastChannel] delivers a posted message to every other channel
    object of the same name, never to the one that posted it. *)

Definition channelName (t : TabSync) : string := "orbit-" +:+ tsStoreId t.

Definition listensTo (name : string) (w : World) : bool :=
  match tabSync (store w) with
  | Some t => bool_decide (channelName t = name)
  | None => false
  end.

Record Posted : Type := mkPosted {
  sender : nat;
  channel : string;
  message : SyncMessage
}.

Definition deliver (p : Posted) (nodes : list World) : list World :=
  imap (fun j w =>
          if bool_decide (j <> sender p) && listensTo (channel p) w
          then tabOnMessage (message p) w
          else w) nodes.

(** The messages node [j] posted between [before] and [after]. *)
Definition postedBy (j : nat) (before after : World) : list Posted :=
  match tabSync (store after) with
  | Some t =>
      (fun m => {| sender := j; channel := channelName t; message := m |})
        <$> drop (length (posts before)) (posts after)
  | None => []
  end.

Fixpoint postedAll (j : nat) (before after : list World) : list Posted :=
  match before, after with
  | b :: before', a :: after' =>
      postedBy j b a ++ postedAll (S j) before' after'
  | _, _ => []
  end.

(** The bus delivers the queued messages one after the other; what the
    receivers post in turn is queued behind. *)
Fixpoint pump (fuel : nat) (queue : list Posted) (nodes : list World)
    : list Posted * list World :=
  match fuel, queue with
  | S fuel', p :: queue' =>
      let nodes' := deliver p nodes in
      pump fuel' (queue' ++ postedAll 0 nodes nodes') nodes'
  | _, _ => (queue, nodes)
  end.

(** A write at node [i], followed by [fuel] deliveries. *)
Definition writeAt (fuel : nat) (i : nat) (update : Update)
    (nodes : list World) : list Posted * list World :=
  match nodes !! i with
  | Some w =>
      let w' := localWrite update w in
      pump fuel (postedBy i w w') (<[i := w']> nodes)
  | None => ([], nodes)
  end.

End Orbit.

(** ** The status hook *)

Module Status.
Import Orbit.

(** [getSnapshot] of [useOrbitStatus]. *)
Definition getSnapshot (s : OrbitStore) : string :=
  match websocketProvider s with
  | None => "disconnected"
  | Some provider =>
      if wsconnected provider then "connected"
      else if wsconnecting provider then "connecting"
      else "disconnected"
  end.

End Status.

(** ** More of the store: sequences of writes and kinds of events *)

Module OrbitMore.
Import Orbit.

(** Writes made one after the other, with nothing in between. *)
Definition writes (updates : list Update) (w : World) : World :=
  foldl (fun acc u => localWrite u acc) w updates.

(** The events that touch the storage adapter or the debounce timer. *)
Definition storageEvent (e : Event) : bool :=
  match e with
  | EvLoad _ | EvSave _ _ | EvStorageDispose
  | EvSetTimeout _ _ | EvClearTimeout _ => true
  | _ => false
  end.

(** The events on the broadcast channel. *)
Definition channelEvent (e : Event) : bool :=
  match e with
  | EvPost _ | EvChannelClose => true
  | _ => false
  end.

(** What can still reach a store once it is disposed: writes through
    handles the consumer kept, messages of the bus, and timers. *)
Definition lateOp (op : Op) : bool :=
  match op with
  | OpWrite _ | OpTabMessage _ | OpTimer _ => true
  | _ => false
  end.

Definition fireTimers (ids : list nat) (w : World) : World :=
  foldl (fun acc t => fireTimer t acc) w ids.

(** Neither storage nor network: state kept in memory and shared between
    tabs. *)
Definition memoryConfig : OrbitConfig :=
  {| cfgStoreId := "memory"; cfgStorage := false; cfgEnableTabSync := None;
     cfgPersistDebounceMs := None; cfgWebsocketUrl := None;
     cfgWebsocketOptions := None |}.

(** Storage only: tab sync switched off. *)
Definition soloConfig : OrbitConfig :=
  {| cfgStoreId := "solo"; cfgStorage := true;
     cfgEnableTabSync := Some false; cfgPersistDebounceMs := Some 100;
     cfgWebsocketUrl := None; cfgWebsocketOptions := None |}.

(** The events of the network handlers. *)
Definition networkEvent (e : Event) : bool :=
  match e with
  | EvNotify _ _ | EvConnect | EvDisconnect => true
  | _ => false
  end.

(** A store without a storage adapter that has kept clear of it so far. *)
Definition storageFree (w : World) : Prop :=
  storage (store w) = false
  /\ (ObsPersist ∉ observers (ydoc (store w)))
  /\ persistTimer (store w) = None
  /\ timers w = []
  /\ Forall (fun e => storageEvent e = false) (trace w).

(** A store without tab sync that has kept clear of the channel so far. *)
Definition channelFree (w : World) : Prop :=
  tabSync (store w) = None
  /\ Forall (fun e => channelEvent e = false) (trace w).

(** A store whose document has no observer, with no timer pending and a
    closed channel, if any: the state [dispose()] leaves. *)
Definition torndown (w : World) : Prop :=
  observers (ydoc (store w)) = []
  /\ timers w = []
  /\ match tabSync (store w) with
     | Some t => channelClosed t = true
     | None => True
     end.

End OrbitMore.

(** ** The hooks [useOrbit] and [useOrbitObject] *)

Module Hooks.

Section hooks.
(** [V] is the type of the values kept in a [Y.Map], compared with [===].
    A [Y.Map] seen by one replica, and a JavaScript object with string
    keys, are finite maps: the order of the keys plays no part in the
    hooks. *)
Context {V : Type} `{EqDecision V}.

(** *** [useOrbit] *)

(** [getSnapshot]: [map.get(key)], or the initial value when it is
    [undefined]. *)
Definition getSnapshot (key : string) (initialValue : V)
    (map : gmap string V) : V :=
  match map !! key with
  | Some existing => existing
  | None => initialValue
  end.



(** *** [useOrbitObject] *)

Definition entries {B} (obj : gmap string B) : list (string * B) :=
  map_to_list obj.


(** The mount effect: an empty map is filled with the properties of the
    initial value. *)
Definition mountEffect (initialValue map : gmap string V) : gmap string V :=
  if decide (size map = 0%nat)
  then foldl (fun m kv => <[kv.1 := kv.2]> m) map (entries initialValue)
  else map.





(** [updateObject]: the properties of [updates] that are not [undefined]
    are set, one after the other. *)
Definition updateObject (updates : gmap string (option V))
    (map : gmap string V) : gmap string V :=
  foldl (fun m kv =>
           match kv.2 with
           | Some propValue => <[kv.1 := propValue]> m
           | None => m
           end) map (entries updates).
End hooks.

End Hooks.

(** ** The IndexedDB storage adapter *)

Module IndexedDB.

(** What the object store "documents" can hold under a key: a
    [Uint8Array], or something else. *)
Inductive Stored : Type :=
| StoredBytes (state : list Byte.byte)
| StoredOther.

Inductive PromiseState : Type :=
| Pending
| Fulfilled
| Rejected.

(** The fields of the adapter: whether [db] holds a connection, and the
    state of the promise in [initPromise], if any. *)
Record Adapter : Type := mkAdapter {
  db : bool;
  initPromise : option PromiseState
}.

(** What the adapter asks of IndexedDB. *)
Inductive IdbEvent : Type :=
| IdbOpen
| IdbClose
| IdbGet (documentId : string)
| IdbPut (documentId : string) (state : list Byte.byte)
| IdbDelete (documentId : string).

(** The adapter, the object store of the database "orbit-storage" ([None]
    until the first upgrade creates it) and the requests made so far. *)
Record Env : Type := mkEnv {
  adapter : Adapter;
  documents : option (gmap string Stored);
  requests : list IdbEvent
}.

Definition newAdapter : Adapter := {| db := false; initPromise := None |}.

Definition request (e : IdbEvent) (w : Env) : Env :=
  {| adapter := adapter w; documents := documents w;
     requests := requests w ++ [e] |}.

Definition withAdapter (a : Adapter) (w : Env) : Env :=
  {| adapter := a; documents := documents w; requests := requests w |}.

(** *** [init]

    What a call of [init()] does before it returns its promise, and what
    the handlers of the open request do when it settles. *)

Inductive InitResult : Type :=
| HaveDb
| AwaitOpen
| OpenFailed.

Definition initCall (w : Env) : InitResult * Env :=
  if db (adapter w) then (HaveDb, w)
  else
    match initPromise (adapter w) with
    | Some Pending => (AwaitOpen, w)
    | Some Fulfilled => (HaveDb, w)
    | Some Rejected => (OpenFailed, w)
    | None =>
        (AwaitOpen,
         request IdbOpen
           (withAdapter {| db := false; initPromise := Some Pending |} w))
    end.

(** [onupgradeneeded], when the store does not exist, then [onsuccess]. *)
Definition openSucceeds (w : Env) : Env :=
  match initPromise (adapter w) with
  | Some Pending =>
      {| adapter := {| db := true; initPromise := Some Fulfilled |};
         documents := Some (default ∅ (documents w));
         requests := requests w |}
  | _ => w
  end.

(** [onerror]. *)
Definition openFails (w : Env) : Env :=
  match initPromise (adapter w) with
  | Some Pending =>
      withAdapter {| db := db (adapter w); initPromise := Some Rejected |} w
  | _ => w
  end.

(** [await this.init()], the open request settling as [openOk] says when
    there is one to wait for. *)
Definition awaitInit (openOk : bool) (w : Env) : bool * Env :=
  match initCall w with
  | (HaveDb, w1) => (true, w1)
  | (OpenFailed, w1) => (false, w1)
  | (AwaitOpen, w1) =>
      if openOk then (true, openSucceeds w1) else (false, openFails w1)
  end.

(** *** [load], [save], [delete], [dispose] *)

Inductive Outcome : Type :=
| Loaded (state : option (list Byte.byte))
| Done
| Failed (error : string).

Definition stored (w : Env) (documentId : string) : option Stored :=
  documents w ≫= (fun docs => docs !! documentId).

Definition load (openOk requestOk : bool) (documentId : string) (w : Env)
    : Outcome * Env :=
  let '(ok, w1) := awaitInit openOk w in
  if ok then
    let w2 := request (IdbGet documentId) w1 in
    if requestOk then
      (Loaded (match stored w2 documentId with
               | Some (StoredBytes state) => Some state
               | _ => None
               end), w2)
    else (Failed ("Failed to load document: " +:+ documentId), w2)
  else (Failed "Failed to open IndexedDB", w1).

Definition save (openOk requestOk : bool) (documentId : string)
    (state : list Byte.byte) (w : Env) : Outcome * Env :=
  let '(ok, w1) := awaitInit openOk w in
  if ok then
    let w2 := request (IdbPut documentId state) w1 in
    if requestOk then
      (Done,
       {| adapter := adapter w2;
          documents :=
            Some (<[documentId := StoredBytes state]>
                    (default ∅ (documents w2)));
          requests := requests w2 |})
    else (Failed ("Failed to save document: " +:+ documentId), w2)
  else (Failed "Failed to open IndexedDB", w1).

Definition delete (openOk requestOk : bool) (documentId : string) (w : Env)
    : Outcome * Env :=
  let '(ok, w1) := awaitInit openOk w in
  if ok then
    let w2 := request (IdbDelete documentId) w1 in
    if requestOk then
      (Done,
       {| adapter := adapter w2;
          documents :=
            Some (base.delete documentId (default ∅ (documents w2)));
          requests := requests w2 |})
    else (Failed ("Failed to delete document: " +:+ documentId), w2)
  else (Failed "Failed to open IndexedDB", w1).

Definition dispose (w : Env) : Env :=
  if db (adapter w)
  then request IdbClose
         (withAdapter {| db := false; initPromise := None |} w)
  else w.

(** *** Sequences of calls *)

Inductive Call : Type :=
| CallLoad (openOk requestOk : bool) (documentId : string)
| CallSave (openOk requestOk : bool) (documentId : string)
    (state : list Byte.byte)
| CallDelete (openOk requestOk : bool) (documentId : string)
| CallDispose.

Definition perform (c : Call) (w : Env) : Outcome * Env :=
  match c with
  | CallLoad openOk requestOk documentId => load openOk requestOk documentId w
  | CallSave openOk requestOk documentId state =>
      save openOk requestOk documentId state w
  | CallDelete openOk requestOk documentId =>
      delete openOk requestOk documentId w
  | CallDispose => (Done, dispose w)
  end.

(** The outcomes of the calls, in order, and the state they leave. *)
Fixpoint performAll (cs : list Call) (w : Env) : list Outcome * Env :=
  match cs with
  | [] => ([], w)
  | c :: cs' =>
      let '(o, w1) := perform c w in
      let '(os, w2) := performAll cs' w1 in
      (o :: os, w2)
  end.

Definition isOpen (e : IdbEvent) : bool :=
  match e with IdbOpen => true | _ => false end.

Definition opens (w : Env) : nat :=
  length (filter (fun e => isOpen e = true) (requests w)).

(** Calls of [init()] made one after the other before the open request
    settles. *)
Fixpoint initCalls (n : nat) (w : Env) : list InitResult * Env :=
  match n with
  | O => ([], w)
  | S n' =>
      let '(r, w1) := initCall w in
      let '(rs, w2) := initCalls n' w1 in
      (r :: rs, w2)
  end.

Definition isDispose (c : Call) : bool :=
  match c with CallDispose => true | _ => false end.

(** [db] holds a connection exactly when the promise of [init] is
    fulfilled. *)
Definition consistent (w : Env) : Prop :=
  db (adapter w) = true <-> initPromise (adapter w) = Some Fulfilled.

Definition closes (w : Env) : nat :=
  length (filter (fun e => match e with IdbClose => true | _ => false end
                           = true) (requests w)).

End IndexedDB.

(** ** The example WebSocket server *)

Module Server.

(** [url?.slice(1) || "default"]. *)
Definition slice1 (s : string) : string :=
  match s with
  | EmptyString => EmptyString
  | String _ rest => rest
  end.

Definition getDocName (url : option string) : string :=
  match url with
  | None => "default"
  | Some u => if decide (slice1 u = "") then "default" else slice1 u
  end.

Section server.
(** The server keeps one Yjs document for each room. What it needs of Yjs:
    a new document, the document after [Y.applyUpdate] on some bytes
    (whether or not that call throws, which the server catches), and the
    encoding of its state. *)
Variable Doc : Type.
Variable newDoc : Doc.
Variable applyUpdate : list Byte.byte -> Doc -> Doc.
Variable encodeStateAsUpdate : Doc -> list Byte.byte.

(** The two maps of the server, and what it has sent to which socket. *)
Record State : Type := mkState {
  docs : gmap string Doc;
  connections : gmap string (list nat);
  sent : list (nat * list Byte.byte)
}.

Definition send (client : nat) (message : list Byte.byte) (st : State)
    : State :=
  {| docs := docs st; connections := connections st;
     sent := sent st ++ [(client, message)] |}.

(** [Set.add]. *)
Definition setAdd (x : nat) (l : list nat) : list nat :=
  if decide (x ∈ l) then l else l ++ [x].

(** The handler of ["connection"]. *)
Definition onConnection (websocket : nat) (url : option string) (st : State)
    : State :=
  let docName := getDocName url in
  let st1 :=
    match docs st !! docName with
    | Some _ => st
    | None =>
        {| docs := <[docName := newDoc]> (docs st);
           connections := <[docName := []]> (connections st);
           sent := sent st |}
    end in
  let ydoc := default newDoc (docs st1 !! docName) in
  let docConnections := default [] (connections st1 !! docName) in
  let st2 :=
    {| docs := docs st1;
       connections :=
         <[docName := setAdd websocket docConnections]> (connections st1);
       sent := sent st1 |} in
  send websocket (Byte.x00 :: Byte.x00 :: encodeStateAsUpdate ydoc) st2.

(** The test on the first two bytes of a message. *)
Definition isSyncMessage (update : list Byte.byte) : bool :=
  match update !! 0%nat, update !! 1%nat with
  | Some Byte.x00, Some Byte.x00
  | Some Byte.x00, Some Byte.x01
  | Some Byte.x00, Some Byte.x02 => true
  | _, _ => false
  end.

(** The handler of ["message"] of a socket of room [docName]; [ready]
    tells which sockets have [readyState] 1. *)
Definition onMessage (websocket : nat) (docName : string)
    (message : list Byte.byte) (ready : nat -> bool) (st : State) : State :=
  match docs st !! docName, connections st !! docName with
  | Some ydoc, Some docConnections =>
      let ydoc' :=
        if isSyncMessage message then
          let actualUpdate := drop 2 message in
          if decide (0 < length actualUpdate)%nat
          then applyUpdate actualUpdate ydoc
          else ydoc
        else ydoc in
      let st1 :=
        {| docs := <[docName := ydoc']> (docs st);
           connections := connections st; sent := sent st |} in
      foldl (fun acc client =>
               if bool_decide (client <> websocket) && ready client
               then send client message acc
               else acc) st1 docConnections
  | _, _ => st
  end.

(** The handler of ["close"]. *)
Definition onClose (websocket : nat) (docName : string) (st : State) : State :=
  match connections st !! docName with
  | Some docConnections =>
      let remaining := filter (fun c => c <> websocket) docConnections in
      if decide (length remaining = 0)%nat
      then {| docs := base.delete docName (docs st);
              connections := base.delete docName (connections st);
              sent := sent st |}
      else {| docs := docs st;
              connections := <[docName := remaining]> (connections st);
              sent := sent st |}
  | None => st
  end.

Definition start : State := {| docs := ∅; connections := ∅; sent := [] |}.

End server.

Arguments docs {Doc} _.
Arguments connections {Doc} _.
Arguments sent {Doc} _.
Arguments send {Doc} _ _ _.
Arguments onConnection {Doc} _ _ _ _ _.
Arguments onMessage {Doc} _ _ _ _ _ _.
Arguments onClose {Doc} _ _ _.
Arguments start {Doc}.

(** A document that is the list of the updates applied to it, for the
    examples. *)
Definition logApply (update : list Byte.byte) (d : list (list Byte.byte))
    : list (list Byte.byte) :=
  d ++ [update].

Definition logEncode (d : list (list Byte.byte)) : list Byte.byte :=
  concat d.

End Server.

(** ** Properties of the minimal text diff *)

Module TextDiffSpec.
Import TextDiff.

Section diff_facts.
Context {A : Type} `{EqDecision A}.
Implicit Types oldText newText s t : list A.

Lemma charAt_of_nat s (n : nat) : charAt s (Z.of_nat n) = s !! n.
Proof.
  unfold charAt. destruct (decide (0 <= Z.of_nat n)); [|lia].
  by rewrite Nat2Z.id.
Qed.

(** *** The prefix loop *)

Lemma prefixCond_true oldText newText (n : nat) :
  prefixCond oldText newText (Z.of_nat n) = true ->
  exists x, oldText !! n = Some x /\ newText !! n = Some x.
Proof.
  unfold prefixCond. rewrite !andb_true_iff, !bool_decide_eq_true.
  rewrite !charAt_of_nat. unfold len. intros [[Ho Hn] Heq].
  destruct (lookup_lt_is_Some_2 oldText n) as [x Hx]; [lia|].
  exists x. split; [done|]. by rewrite <- Heq.
Qed.

Lemma prefixCond_false oldText newText (n : nat) :
  prefixCond oldText newText (Z.of_nat n) = false ->
  (n < length oldText)%nat -> (n < length newText)%nat ->
  oldText !! n <> newText !! n.
Proof.
  unfold prefixCond. intros Hc Ho Hn Heq.
  rewrite !charAt_of_nat in Hc.
  rewrite (bool_decide_eq_true_2 _ Heq) in Hc.
  rewrite !bool_decide_eq_true_2 in Hc; [done | unfold len; lia ..].
Qed.

Lemma prefixLoop_inv fuel : forall oldText newText (n : nat),
  take n oldText = take n newText ->
  (n <= length oldText)%nat -> (n <= length newText)%nat ->
  (length oldText - n <= fuel)%nat ->
  exists r : nat,
    prefixLoop fuel oldText newText (Z.of_nat n) = Z.of_nat r
    /\ (n <= r)%nat /\ (r <= length oldText)%nat /\ (r <= length newText)%nat
    /\ take r oldText = take r newText
    /\ prefixCond oldText newText (Z.of_nat r) = false.
Proof.
  induction fuel as [|fuel IH]; intros oldText newText n Htake Ho Hn Hfuel.
  - exists n. simpl. repeat split; try lia; try done.
    unfold prefixCond. rewrite bool_decide_eq_false_2; [done|].
    unfold len. lia.
  - simpl. destruct (prefixCond oldText newText (Z.of_nat n)) eqn:Hc.
    + destruct (prefixCond_true _ _ _ Hc) as (x & Hx & Hy).
      apply lookup_lt_Some in Hx as Hlo. apply lookup_lt_Some in Hy as Hln.
      destruct (IH oldText newText (S n)) as (r & Hr & ?); try lia.
      { rewrite (take_S_r _ _ _ Hx), (take_S_r _ _ _ Hy). by rewrite Htake. }
      exists r. replace (Z.of_nat n + 1) with (Z.of_nat (S n)) by lia.
      split; [done|]. intuition lia.
    + exists n. repeat split; try lia; done.
Qed.

Lemma commonPrefixOf_spec oldText newText :
  exists r : nat,
    commonPrefixOf oldText newText = Z.of_nat r
    /\ (r <= length oldText)%nat /\ (r <= length newText)%nat
    /\ take r oldText = take r newText
    /\ prefixCond oldText newText (Z.of_nat r) = false.
Proof.
  destruct (prefixLoop_inv (length oldText) oldText newText 0%nat)
    as (r & Hr & _ & ?); try lia; [done|].
  exists r. split; [exact Hr|done].
Qed.


(** *** The suffix loop *)

Lemma suffixCond_true oldText newText (p k : nat) :
  suffixCond oldText newText (Z.of_nat p) (Z.of_nat k) = true ->
  (k < length oldText - p)%nat /\ (k < length newText - p)%nat
  /\ exists x, oldText !! (length oldText - 1 - k)%nat = Some x
               /\ newText !! (length newText - 1 - k)%nat = Some x.
Proof.
  unfold suffixCond. rewrite !andb_true_iff, !bool_decide_eq_true.
  unfold len. intros [[Ho Hn] Heq].
  replace (Z.of_nat (length oldText) - 1 - Z.of_nat k)
    with (Z.of_nat (length oldText - 1 - k)) in Heq by lia.
  replace (Z.of_nat (length newText) - 1 - Z.of_nat k)
    with (Z.of_nat (length newText - 1 - k)) in Heq by lia.
  rewrite !charAt_of_nat in Heq.
  split; [lia|]. split; [lia|].
  destruct (lookup_lt_is_Some_2 oldText (length oldText - 1 - k)) as [x Hx];
    [lia|].
  exists x. split; [done|]. by rewrite <- Heq.
Qed.

Lemma suffixCond_false oldText newText (p k : nat) :
  suffixCond oldText newText (Z.of_nat p) (Z.of_nat k) = false ->
  (k < length oldText - p)%nat -> (k < length newText - p)%nat ->
  oldText !! (length oldText - 1 - k)%nat
    <> newText !! (length newText - 1 - k)%nat.
Proof.
  unfold suffixCond, len. intros Hc Ho Hn Heq.
  replace (Z.of_nat (length oldText) - 1 - Z.of_nat k)
    with (Z.of_nat (length oldText - 1 - k)) in Hc by lia.
  replace (Z.of_nat (length newText) - 1 - Z.of_nat k)
    with (Z.of_nat (length newText - 1 - k)) in Hc by lia.
  rewrite !charAt_of_nat in Hc.
  rewrite (bool_decide_eq_true_2 _ Heq) in Hc.
  rewrite !bool_decide_eq_true_2 in Hc; [done | lia ..].
Qed.

Lemma suffixLoop_inv fuel : forall oldText newText (p k : nat),
  drop (length oldText - k) oldText = drop (length newText - k) newText ->
  (k <= length oldText - p)%nat -> (k <= length newText - p)%nat ->
  (length oldText - k <= fuel)%nat ->
  exists r : nat,
    suffixLoop fuel oldText newText (Z.of_nat p) (Z.of_nat k) = Z.of_nat r
    /\ (k <= r)%nat
    /\ (r <= length oldText - p)%nat /\ (r <= length newText - p)%nat
    /\ drop (length oldText - r) oldText = drop (length newText - r) newText
    /\ suffixCond oldText newText (Z.of_nat p) (Z.of_nat r) = false.
Proof.
  induction fuel as [|fuel IH]; intros oldText newText p k Hdrop Ho Hn Hfuel.
  - exists k. simpl. repeat split; try lia; try done.
    unfold suffixCond. rewrite bool_decide_eq_false_2; [done|].
    unfold len. lia.
  - simpl.
    destruct (suffixCond oldText newText (Z.of_nat p) (Z.of_nat k)) eqn:Hc.
    + destruct (suffixCond_true _ _ _ _ Hc) as (Hlo & Hln & x & Hx & Hy).
      destruct (IH oldText newText p (S k)) as (r & Hr & ?); try lia.
      { replace (length oldText - S k)%nat
          with (length oldText - 1 - k)%nat by lia.
        replace (length newText - S k)%nat
          with (length newText - 1 - k)%nat by lia.
        rewrite (drop_S _ _ _ Hx), (drop_S _ _ _ Hy).
        replace (S (length oldText - 1 - k)) with (length oldText - k)%nat
          by lia.
        replace (S (length newText - 1 - k)) with (length newText - k)%nat
          by lia.
        by rewrite Hdrop. }
      exists r. replace (Z.of_nat k + 1) with (Z.of_nat (S k)) by lia.
      split; [done|]. intuition lia.
    + exists k. repeat split; try lia; done.
Qed.

Lemma commonSuffixOf_spec oldText newText (p : nat) :
  (p <= length oldText)%nat -> (p <= length newText)%nat ->
  exists r : nat,
    commonSuffixOf oldText newText (Z.of_nat p) = Z.of_nat r
    /\ (r <= length oldText - p)%nat /\ (r <= length newText - p)%nat
    /\ drop (length oldText - r) oldText = drop (length newText - r) newText
    /\ suffixCond oldText newText (Z.of_nat p) (Z.of_nat r) = false.
Proof.
  intros Ho Hn.
  destruct (suffixLoop_inv (length oldText) oldText newText p 0%nat)
    as (r & Hr & _ & ?); try lia.
  { rewrite !Nat.sub_0_r. by rewrite !drop_all. }
  exists r. split; [exact Hr|done].
Qed.

(** *** What the loops compute *)




(** *** Applying the operations *)

Lemma slice_middle s (r k : nat) :
  (r + k <= length s)%nat ->
  slice s (Z.of_nat r) (len s - Z.of_nat k)
  = take (length s - k - r) (drop r s).
Proof.
  intros Hrk. unfold slice, sliceIndex, len.
  destruct (decide (Z.of_nat r < 0)); [lia|].
  destruct (decide (Z.of_nat (length s) - Z.of_nat k < 0)); [lia|].
  f_equal; [|f_equal]; lia.
Qed.

Lemma delete_insert_rebuilds oldText newText (r k : nat) :
  (r + k <= length oldText)%nat -> (r + k <= length newText)%nat ->
  take r oldText = take r newText ->
  drop (length oldText - k) oldText = drop (length newText - k) newText ->
  ytextInsert (Z.of_nat r)
    (slice newText (Z.of_nat r) (len newText - Z.of_nat k))
    (ytextDelete (Z.of_nat r) (len oldText - Z.of_nat r - Z.of_nat k) oldText)
  = newText.
Proof.
  intros Ho Hn Htake Hdrop. unfold ytextInsert, ytextDelete, len.
  rewrite Nat2Z.id.
  replace (Z.to_nat (Z.of_nat r
             + (Z.of_nat (length oldText) - Z.of_nat r - Z.of_nat k)))
    with (length oldText - k)%nat by lia.
  assert (Hlen : length (take r oldText) = r) by (rewrite length_take; lia).
  rewrite take_app_length', drop_app_length' by done.
  rewrite slice_middle by done.
  rewrite Htake, Hdrop, app_assoc, take_take_drop.
  replace (r + (length newText - k - r))%nat with (length newText - k)%nat
    by lia.
  apply take_drop.
Qed.

Lemma ytextDelete_nothing (i : Z) t : ytextDelete i 0 t = t.
Proof. unfold ytextDelete. rewrite Z.add_0_r. apply take_drop. Qed.

Lemma ytextInsert_nothing (i : Z) t : ytextInsert i [] t = t.
Proof. unfold ytextInsert. simpl. apply take_drop. Qed.

Lemma len_slice_middle s (r k : nat) :
  (r + k <= length s)%nat ->
  len (slice s (Z.of_nat r) (len s - Z.of_nat k))
  = len s - Z.of_nat r - Z.of_nat k.
Proof.
  intros Hrk. rewrite slice_middle by done. unfold len.
  rewrite length_take, length_drop. lia.
Qed.

(** The operations the transaction issues have the effect of the full
    delete-then-insert pair: a skipped operation would have changed
    nothing. *)
Lemma transactionOps_as_pair oldText newText (r k : nat) :
  (r + k <= length oldText)%nat -> (r + k <= length newText)%nat ->
  applyOps (transactionOps oldText newText (Z.of_nat r) (Z.of_nat k)) oldText
  = ytextInsert (Z.of_nat r)
      (slice newText (Z.of_nat r) (len newText - Z.of_nat k))
      (ytextDelete (Z.of_nat r) (len oldText - Z.of_nat r - Z.of_nat k)
         oldText).
Proof.
  intros Ho Hn. unfold transactionOps, len.
  destruct (decide (Z.of_nat r + Z.of_nat k < Z.of_nat (length oldText)));
    destruct (decide (Z.of_nat r + Z.of_nat k < Z.of_nat (length newText)));
    simpl; try done.
  - assert (Hmid : slice newText (Z.of_nat r)
                     (len newText - Z.of_nat k) = []).
    { apply length_zero_iff_nil.
      pose proof (len_slice_middle newText r k Hn) as Hl. unfold len in *.
      lia. }
    unfold len in Hmid. by rewrite Hmid, ytextInsert_nothing.
  - replace (Z.of_nat (length oldText) - Z.of_nat r - Z.of_nat k) with 0
      by lia.
    by rewrite ytextDelete_nothing.
  - replace (Z.of_nat (length oldText) - Z.of_nat r - Z.of_nat k) with 0
      by lia.
    rewrite ytextDelete_nothing.
    assert (Hmid : slice newText (Z.of_nat r)
                     (len newText - Z.of_nat k) = []).
    { apply length_zero_iff_nil.
      pose proof (len_slice_middle newText r k Hn) as Hl. unfold len in *.
      lia. }
    unfold len in Hmid. by rewrite Hmid, ytextInsert_nothing.
Qed.

(** After [setOrbitText newText] the text is [newText]. *)
Lemma runSetOrbitText_correct newText oldText :
  runSetOrbitText newText oldText = newText.
Proof.
  unfold runSetOrbitText, setOrbitText.
  destruct (decide (oldText = newText)) as [->|Hne]; [done|].
  destruct (commonPrefixOf_spec oldText newText)
    as (r & -> & Ho & Hn & Htake & _).
  destruct (commonSuffixOf_spec oldText newText r Ho Hn)
    as (k & -> & Hko & Hkn & Hdrop & _).
  rewrite transactionOps_as_pair by lia.
  apply delete_insert_rebuilds; [lia | lia | done | done].
Qed.
(** *** The claims about the diff *)


(** C10. With a non-empty [initialValue], an empty replicated text is shown
    as [initialValue]: the snapshot of an empty text is [initialValue], the
    mount effect fills an empty text with it, no snapshot is the empty
    string, and after [setText("")] the hook still shows [initialValue]. *)
Theorem empty_text_never_observable (initialValue ytext : list A) :
  initialValue <> [] ->
  getSnapshot initialValue [] = initialValue
  /\ mountEffect initialValue [] = initialValue
  /\ getSnapshot initialValue ytext <> []
  /\ runSetOrbitText [] ytext = []
  /\ getSnapshot initialValue (runSetOrbitText [] ytext) = initialValue.
Proof.
  intros Hinit. rewrite runSetOrbitText_correct.
  assert (Hpos : len initialValue > 0).
  { unfold len. destruct initialValue; [done | simpl; lia]. }
  repeat split; try done.
  - unfold mountEffect. rewrite decide_True by (split; [done | exact Hpos]).
    unfold ytextInsert. simpl. by rewrite app_nil_r.
  - unfold getSnapshot. destruct (decide (len ytext > 0)) as [Hl|Hl]; [|done].
    intros ->. unfold len in Hl. simpl in Hl. lia.
Qed.
End diff_facts.

(** *** The examples of the specification *)


(** A witness of C10: the text "Hello" cleared, with "Hello" as initial
    value. *)
Lemma empty_text_never_observable_witness :
  str "Hello" <> []
  /\ getSnapshot (str "Hello") (runSetOrbitText [] (str "Hello"))
     = str "Hello".
Proof.
  assert (Hne : str "Hello" <> []) by discriminate.
  split; [exact Hne|].
  apply (empty_text_never_observable (str "Hello") (str "Hello") Hne).
Defined.

(** The diff of the specification's example is not the one it gives: the
    common prefix is "Hello " (the space included), of length 6 and not 5,
    the common suffix is "World", of length 5 and not 6, and no transaction
    inserts " Orbit" at position 5. *)
Lemma hello_orbit_world_not_at_5 :
  commonPrefixOf (str "Hello World") (str "Hello Orbit World") <> 5
  /\ commonSuffixOf (str "Hello World") (str "Hello Orbit World")
       (commonPrefixOf (str "Hello World") (str "Hello Orbit World")) <> 6
  /\ forall ops,
       setOrbitText (str "Hello World") (str "Hello Orbit World") = Some ops ->
       ~ In (OpInsert 5 (str " Orbit")) ops
       /\ ~ In (OpDelete 5 0) ops.
Proof.
  split; [by vm_compute|]. split; [by vm_compute|].
  intros ops Hops. vm_compute in Hops. injection Hops as <-.
  split; intros [Hin|[]]; discriminate Hin.
Qed.

(** C2, as the code has it: for "Hello World" and "Hello Orbit World" the
    prefix length is 6 and the suffix length 5, no delete is issued and
    "Orbit " is inserted at position 6; for "abc" and "abc" nothing is
    issued. *)
Theorem hello_orbit_world_diff :
  commonPrefixOf (str "Hello World") (str "Hello Orbit World") = 6
  /\ commonSuffixOf (str "Hello World") (str "Hello Orbit World") 6 = 5
  /\ setOrbitText (str "Hello World") (str "Hello Orbit World")
     = Some [OpInsert 6 (str "Orbit ")]
  /\ runSetOrbitText (str "Hello Orbit World") (str "Hello World")
     = str "Hello Orbit World"
  /\ setOrbitText (str "abc") (str "abc") = None.
Proof. repeat split; vm_compute; reflexivity. Qed.

End TextDiffSpec.

(** ** Properties of the store and of tab sync *)

Module OrbitSpec.
Import Orbit.

(** *** Traces *)

Lemma extends_refl P w : extends P w w.
Proof. exists []. by rewrite app_nil_r. Qed.

Lemma extends_trans P w1 w2 w3 :
  extends P w1 w2 -> extends P w2 w3 -> extends P w1 w3.
Proof.
  intros (e1 & H1 & F1) (e2 & H2 & F2). exists (e1 ++ e2).
  split; [by rewrite H2, H1, app_assoc | by apply Forall_app].
Qed.

Lemma extends_log (P : Event -> Prop) e w : P e -> extends P w (log e w).
Proof. intros HP. exists [e]. split; [done | by constructor]. Qed.

Lemma extends_weaken (P Q : Event -> Prop) w w' :
  (forall e, P e -> Q e) -> extends P w w' -> extends Q w w'.
Proof.
  intros HPQ (evs & Ht & HF). exists evs. split; [done|].
  by apply (Forall_impl _ _ _ HF).
Qed.

Lemma omap_none {A B} (f : A -> option B) (l : list A) :
  Forall (fun x => f x = None) l -> omap f l = [].
Proof. induction 1 as [|x l Hx _ IH]; simpl; [done | by rewrite Hx]. Qed.

Lemma extends_saves w w' :
  extends (fun e => saveOf e = None) w w' -> saves w' = saves w.
Proof.
  intros (evs & Ht & HF). unfold saves.
  by rewrite Ht, omap_app, (omap_none _ _ HF), app_nil_r.
Qed.

Lemma extends_posts w w' :
  extends (fun e => postOf e = None) w w' -> posts w' = posts w.
Proof.
  intros (evs & Ht & HF). unfold posts.
  by rewrite Ht, omap_app, (omap_none _ _ HF), app_nil_r.
Qed.

Lemma extends_applies w w' :
  extends (fun e => applyOf e = None) w w' -> applies w' = applies w.
Proof.
  intros (evs & Ht & HF). unfold applies.
  by rewrite Ht, omap_app, (omap_none _ _ HF), app_nil_r.
Qed.

Lemma filter_none {A} (P : A -> Prop) `{forall x, Decision (P x)}
    (l : list A) :
  Forall (fun x => ~ P x) l -> filter P l = [].
Proof.
  induction 1 as [|x l Hx _ IH]; [done|].
  by rewrite filter_cons_False.
Qed.

Lemma filter_ne_singleton (t : nat) : filter (fun t' => t' <> t) [t] = [].
Proof.
  apply filter_none. constructor; [|constructor]. intros H. by apply H.
Qed.

Lemma extends_connects w w' :
  extends (fun e => isConnect e = false) w w' -> connects w' = connects w.
Proof.
  intros (evs & Ht & HF). unfold connects.
  rewrite Ht, filter_app, length_app, (filter_none _ evs); [simpl; lia|].
  apply (Forall_impl _ _ _ HF). intros e He. by rewrite He.
Qed.

(** *** The update handlers *)

Lemma onlyTimer_refl w : onlyTimer w w.
Proof. unfold onlyTimer. by destruct (store w). Qed.

Lemma onlyTimer_trans w1 w2 w3 :
  onlyTimer w1 w2 -> onlyTimer w2 w3 -> onlyTimer w1 w3.
Proof. unfold onlyTimer. intros H1 H2. rewrite H2, H1. done. Qed.

Lemma oneTimer_tracked w : oneTimer w -> timersTracked w.
Proof.
  intros (t & Ht & Hp) t'. rewrite Ht. intros Hin.
  apply list_elem_of_singleton in Hin. by subst.
Qed.

Lemma tracked_filter w t :
  timersTracked w -> persistTimer (store w) = Some t ->
  filter (fun t' => t' <> t) (timers w) = [].
Proof.
  intros Htr Hp. apply filter_none. apply Forall_forall. intros t' Hin.
  apply Htr in Hin. rewrite Hp in Hin. intros Hne. apply Hne. congruence.
Qed.

Lemma tracked_none w :
  timersTracked w -> persistTimer (store w) = None -> timers w = [].
Proof.
  intros Htr Hp. destruct (timers w) as [|t l] eqn:Ht; [done|].
  specialize (Htr t). rewrite Ht, Hp in Htr.
  discriminate Htr. apply list_elem_of_here.
Qed.

Lemma handleUpdate_frame w :
  onlyTimer w (handleUpdate w) /\ extends timerEvent w (handleUpdate w).
Proof.
  unfold handleUpdate. destruct (persistTimer (store w)) as [t|]; simpl.
  - split; [unfold onlyTimer; simpl; by destruct (store w)|].
    exists [EvClearTimeout t; EvSetTimeout (nextTimer w) (persistDebounceMs (store w))].
    split; [simpl; by rewrite <- app_assoc | repeat constructor].
  - split; [unfold onlyTimer; simpl; by destruct (store w)|].
    exists [EvSetTimeout (nextTimer w) (persistDebounceMs (store w))].
    split; [done | repeat constructor].
Qed.

Lemma handleUpdate_oneTimer w :
  timersTracked w -> oneTimer (handleUpdate w).
Proof.
  intros Htr. unfold handleUpdate.
  destruct (persistTimer (store w)) as [t|] eqn:Hp; simpl.
  - exists (nextTimer w). simpl. by rewrite (tracked_filter _ _ Htr Hp).
  - exists (nextTimer w). simpl. by rewrite (tracked_none _ Htr Hp).
Qed.
Lemma onlyTimer_fields w w' :
  onlyTimer w w' ->
  ydoc (store w') = ydoc (store w)
  /\ storage (store w') = storage (store w)
  /\ storeId (store w') = storeId (store w)
  /\ tabSync (store w') = tabSync (store w)
  /\ websocketProvider (store w') = websocketProvider (store w).
Proof. unfold onlyTimer. intros ->. done. Qed.

Lemma tabUpdateHandler_frame t u o w :
  store (tabUpdateHandler t u o w) = store w
  /\ timers (tabUpdateHandler t u o w) = timers w
  /\ extends handlerEvent w (tabUpdateHandler t u o w).
Proof.
  unfold tabUpdateHandler, broadcastUpdate.
  destruct (decide (o <> OriginTabSync (tsSelf t))); simpl.
  - repeat split. by apply extends_log.
  - repeat split. apply extends_refl.
Qed.

Lemma tabUpdateHandler_own t u w :
  tabUpdateHandler t u (OriginTabSync (tsSelf t)) w = w.
Proof. unfold tabUpdateHandler. by rewrite decide_False by (intros H; by apply H). Qed.

Lemma runObserver_frame h u o w :
  onlyTimer w (runObserver h u o w)
  /\ extends handlerEvent w (runObserver h u o w).
Proof.
  destruct h as [|c]; simpl.
  - destruct (handleUpdate_frame w) as [H1 H2]. split; [done|].
    apply (extends_weaken timerEvent); [|done]. by intros [].
  - destruct (tabSync (store w)) as [t|].
    + destruct (tabUpdateHandler_frame t u o w) as (Hs & _ & He).
      split; [|done]. unfold onlyTimer. rewrite Hs. by destruct (store w).
    + split; [apply onlyTimer_refl | apply extends_refl].
Qed.

Lemma runObserver_timers h u o w :
  timersTracked w ->
  timersTracked (runObserver h u o w)
  /\ (h = ObsPersist \/ oneTimer w -> oneTimer (runObserver h u o w)).
Proof.
  intros Htr. destruct h as [|c]; simpl.
  - pose proof (handleUpdate_oneTimer w Htr) as H1.
    split; [by apply oneTimer_tracked | done].
  - destruct (tabSync (store w)) as [t|].
    + destruct (tabUpdateHandler_frame t u o w) as (Hs & Ht & _).
      split.
      * intros t'. rewrite Hs, Ht. apply Htr.
      * intros [Hh|(t' & Ht' & Hp)]; [done|].
        exists t'. by rewrite Hs, Ht.
    + split; [done|]. by intros [Hh|H1].
Qed.

Lemma observers_fold_frame u o hs : forall w,
  onlyTimer w (foldl (fun acc h => runObserver h u o acc) w hs)
  /\ extends handlerEvent w (foldl (fun acc h => runObserver h u o acc) w hs).
Proof.
  induction hs as [|h hs IH]; intros w; simpl.
  - split; [apply onlyTimer_refl | apply extends_refl].
  - destruct (runObserver_frame h u o w) as [H1 H2].
    destruct (IH (runObserver h u o w)) as [H3 H4].
    split; [by apply (onlyTimer_trans _ _ _ H1)
           | by apply (extends_trans _ _ _ _ H2)].
Qed.

Lemma observers_fold_timers u o hs : forall w,
  timersTracked w ->
  timersTracked (foldl (fun acc h => runObserver h u o acc) w hs)
  /\ (ObsPersist ∈ hs \/ oneTimer w ->
      oneTimer (foldl (fun acc h => runObserver h u o acc) w hs)).
Proof.
  induction hs as [|h hs IH]; intros w Htr; simpl.
  - split; [done|]. intros [Hin|H1]; [|done]. by apply not_elem_of_nil in Hin.
  - destruct (runObserver_timers h u o w Htr) as [H1 H2].
    destruct (IH _ H1) as [H3 H4]. split; [done|].
    intros [Hin|Hone].
    + apply elem_of_cons in Hin as [<-|Hin].
      * apply H4. right. apply H2. by left.
      * apply H4. by left.
    + apply H4. right. apply H2. by right.
Qed.

(** The handlers post nothing when the origin is the [TabSync] instance of
    the store. *)
Lemma observers_fold_own u t hs : forall w,
  tabSync (store w) = Some t ->
  extends timerEvent w
    (foldl (fun acc h => runObserver h u (OriginTabSync (tsSelf t)) acc) w hs).
Proof.
  induction hs as [|h hs IH]; intros w Ht; simpl.
  - apply extends_refl.
  - destruct (runObserver_frame h u (OriginTabSync (tsSelf t)) w) as [H1 _].
    apply onlyTimer_fields in H1 as (_ & _ & _ & Htab & _).
    eapply extends_trans; [|apply IH; by rewrite Htab].
    destruct h as [|c]; simpl.
    + apply handleUpdate_frame.
    + rewrite Ht, tabUpdateHandler_own. apply extends_refl.
Qed.

(** *** Transactions *)

Lemma extends_same_trace P w1 w1' w2 :
  trace w1' = trace w1 -> extends P w1' w2 -> extends P w1 w2.
Proof. intros Ht (evs & H1 & H2). exists evs. by rewrite <- Ht. Qed.

Lemma extends_withStore P f w : extends P w (withStore f w).
Proof. exists []. simpl. by rewrite app_nil_r. Qed.

Lemma transact_frame u o w :
  store (transact u o w)
  = setPersistTimer (persistTimer (store (transact u o w)))
      (setYdoc (integrate u (ydoc (store w))) (store w))
  /\ extends handlerEvent w (transact u o w).
Proof.
  unfold transact.
  destruct (decide (u ⊆ items (ydoc (store w)))).
  - split; [simpl; by destruct (store w)|].
    apply extends_withStore.
  - destruct (observers_fold_frame (u ∖ items (ydoc (store w))) o
                (observers (ydoc (store w)))
                (withStore (setYdoc (integrate u (ydoc (store w)))) w))
      as [H1 H2].
    split; [exact H1|].
    by apply (extends_same_trace _ _
                (withStore (setYdoc (integrate u (ydoc (store w)))) w)).
Qed.

Lemma transact_timers u o w :
  timersTracked w ->
  timersTracked (transact u o w)
  /\ (~ u ⊆ items (ydoc (store w)) ->
      ObsPersist ∈ observers (ydoc (store w)) ->
      oneTimer (transact u o w)).
Proof.
  intros Htr. unfold transact.
  assert (Htr1 : timersTracked
                   (withStore (setYdoc (integrate u (ydoc (store w)))) w))
    by exact Htr.
  destruct (decide (u ⊆ items (ydoc (store w)))) as [Hsub|Hsub].
  - split; [done|]. by intros Hn.
  - destruct (observers_fold_timers (u ∖ items (ydoc (store w))) o
                (observers (ydoc (store w))) _ Htr1) as [H1 H2].
    split; [exact H1|]. intros _ Hin. apply H2. by left.
Qed.

(** A transaction whose origin is the [TabSync] instance of the store posts
    nothing. *)
Lemma transact_own u t w :
  tabSync (store w) = Some t ->
  extends timerEvent w (transact u (OriginTabSync (tsSelf t)) w).
Proof.
  intros Ht. unfold transact.
  destruct (decide (u ⊆ items (ydoc (store w)))).
  - apply extends_withStore.
  - apply (extends_same_trace _ _
             (withStore (setYdoc (integrate u (ydoc (store w)))) w));
      [done|].
    by apply observers_fold_own.
Qed.

Lemma transact_fields u o w :
  ydoc (store (transact u o w)) = integrate u (ydoc (store w))
  /\ storage (store (transact u o w)) = storage (store w)
  /\ storeId (store (transact u o w)) = storeId (store w)
  /\ tabSync (store (transact u o w)) = tabSync (store w)
  /\ websocketProvider (store (transact u o w)) = websocketProvider (store w)
  /\ initialized (store (transact u o w)) = initialized (store w)
  /\ statusListeners (store (transact u o w)) = statusListeners (store w)
  /\ websocketFailures (store (transact u o w)) = websocketFailures (store w)
  /\ maxWebsocketFailures (store (transact u o w))
     = maxWebsocketFailures (store w).
Proof. destruct (transact_frame u o w) as [-> _]. done. Qed.
(** *** Persisting *)

Lemma persist_trace w :
  storage (store w) = true ->
  trace (persist w)
  = trace w ++ [EvSave (storeId (store w))
                  (encodeStateAsUpdate (ydoc (store w)))].
Proof. intros Hs. unfold persist. by rewrite Hs. Qed.

Lemma persist_frame w :
  store (persist w) = store w /\ timers (persist w) = timers w.
Proof. unfold persist. by destruct (storage (store w)). Qed.

Lemma saves_log_save w id u : saves (log (EvSave id u) w) = saves w ++ [(id, u)].
Proof. unfold saves. simpl. by rewrite omap_app. Qed.

(** [persist()] with a timer pending does not cancel it: after a write the
    timer 0 is pending, it is still pending after [persist()], and when it
    fires the same state is saved a second time. *)
Lemma persist_does_not_cancel_timer :
  timers (localWrite {[1%nat]} (init None (newStore localConfig))) = [0%nat]
  /\ timers (persist (localWrite {[1%nat]} (init None (newStore localConfig))))
     = [0%nat]
  /\ Forall (fun e => e <> EvClearTimeout 0)
       (trace (persist (localWrite {[1%nat]}
                          (init None (newStore localConfig)))))
  /\ saves (fireTimer 0
              (persist (localWrite {[1%nat]}
                          (init None (newStore localConfig)))))
     = [("my-app", {[1%nat]}); ("my-app", {[1%nat]})].
Proof.
  split_and!; try (vm_compute; reflexivity).
  vm_compute. repeat constructor; discriminate.
Qed.

(** C3, as the code has it. With a storage adapter, [persist()] at once
    encodes the full state of the document and hands it to the adapter, and
    changes nothing else: a pending debounce timer stays pending, and when
    it fires the state is saved a second time. *)
Theorem persist_saves_and_keeps_timer w :
  storage (store w) = true ->
  trace (persist w)
  = trace w ++ [EvSave (storeId (store w))
                  (encodeStateAsUpdate (ydoc (store w)))]
  /\ store (persist w) = store w
  /\ timers (persist w) = timers w
  /\ forall t, t ∈ timers w ->
       saves (fireTimer t (persist w))
       = saves w ++ [(storeId (store w), encodeStateAsUpdate (ydoc (store w)));
                     (storeId (store w), encodeStateAsUpdate (ydoc (store w)))].
Proof.
  intros Hs. destruct (persist_frame w) as [Hst Htm].
  split_and!; try done; [by apply persist_trace|].
  intros t Hin. unfold fireTimer. rewrite Htm, decide_True by done.
  unfold persist at 1. simpl. rewrite Hst, Hs, saves_log_save.
  unfold persist. rewrite Hs. unfold saves. simpl.
  by rewrite omap_app, <- app_assoc.
Qed.

Lemma persist_saves_and_keeps_timer_witness :
  storage (store (localWrite {[1%nat]} (init None (newStore localConfig))))
  = true
  /\ timers (persist (localWrite {[1%nat]} (init None (newStore localConfig))))
     = timers (localWrite {[1%nat]} (init None (newStore localConfig))).
Proof.
  assert (Hs : storage (store (localWrite {[1%nat]}
                                 (init None (newStore localConfig)))) = true)
    by reflexivity.
  split; [exact Hs|].
  apply (persist_saves_and_keeps_timer _ Hs).
Defined.

(** *** Initialising *)

Lemma init_initialized state w : initialized (store (init state w)) = true.
Proof.
  unfold init, initBegin.
  destruct (initialized (store w)) eqn:Hi; [done|].
  destruct (storage (store w)); done.
Qed.

Lemma initBegin_initialized w :
  initialized (store w) = true -> initBegin w = (InitReturned, w).
Proof. intros Hi. unfold initBegin. by rewrite Hi. Qed.

Lemma init_again state state' w : init state' (init state w) = init state w.
Proof.
  unfold init at 1. by rewrite (initBegin_initialized _ (init_initialized _ _)).
Qed.

Lemma init_many states : forall state w,
  foldl (fun acc st => init st acc) (init state w) states = init state w.
Proof.
  induction states as [|st states IH]; intros state w; simpl; [done|].
  by rewrite init_again.
Qed.

(** The first [init] of a store that was just constructed. *)
Lemma init_fresh_counts self config state :
  (length (loads (init state (newStoreAt self config))) <= 1)%nat
  /\ (length (applies (init state (newStoreAt self config))) <= 1)%nat
  /\ (tabHandlers (init state (newStoreAt self config)) <= 1)%nat
  /\ (connects (init state (newStoreAt self config)) <= 1)%nat.
Proof.
  destruct config as [id st ets pd url opts].
  unfold init, initBegin, initResume, newStoreAt. simpl.
  destruct st, (decide (ets <> Some false)), url as [?|], state as [u|];
    simpl; unfold applyUpdate, transact; simpl;
    try destruct (decide (u ⊆ ∅)); simpl;
    unfold loads, applies, tabHandlers, connects; simpl;
    repeat (rewrite ?filter_cons, ?filter_nil; simpl;
            try case_decide; simpl; try done);
    lia.
Qed.

(** Two calls of [init()] that race on [storage.load]: both pass the
    [initialized] test, and the blob is loaded and applied twice, two update
    handlers of tab sync are registered, [connect()] is called twice; a
    write is then broadcast twice. *)
Lemma racing_init_runs_twice :
  (initBegin (newStore fullConfig)).1 = InitAwaitingLoad
  /\ (initBegin (initBegin (newStore fullConfig)).2).1 = InitAwaitingLoad
  /\ loads (initResume (Some {[1%nat]})
              (initResume (Some {[1%nat]})
                 (initBegin (initBegin (newStore fullConfig)).2).2))
     = ["my-app"; "my-app"]
  /\ applies (initResume (Some {[1%nat]})
                (initResume (Some {[1%nat]})
                   (initBegin (initBegin (newStore fullConfig)).2).2))
     = [({[1%nat]}, OriginNone); ({[1%nat]}, OriginNone)]
  /\ tabHandlers (initResume (Some {[1%nat]})
                    (initResume (Some {[1%nat]})
                       (initBegin (initBegin (newStore fullConfig)).2).2))
     = 2%nat
  /\ connects (initResume (Some {[1%nat]})
                 (initResume (Some {[1%nat]})
                    (initBegin (initBegin (newStore fullConfig)).2).2))
     = 2%nat
  /\ length (posts (localWrite {[2%nat]}
                      (initResume (Some {[1%nat]})
                         (initResume (Some {[1%nat]})
                            (initBegin
                               (initBegin (newStore fullConfig)).2).2))))
     = 2%nat.
Proof. split_and!; vm_compute; reflexivity. Qed.

(** C4, as the code has it. [init()] is idempotent for calls made one after
    the other: a completed call leaves the store initialised, a later call
    returns at once and changes nothing, and however many calls follow each
    other on a new store, the blob is loaded and applied at most once, at
    most one update handler of tab sync is registered and [connect()] is
    called at most once. *)
Theorem init_idempotent_sequential :
  (forall state w, initialized (store (init state w)) = true)
  /\ (forall state w,
        initBegin (init state w) = (InitReturned, init state w))
  /\ (forall state state' w, init state' (init state w) = init state w)
  /\ (forall self config states,
        (length (loads (foldl (fun acc st => init st acc)
                          (newStoreAt self config) states)) <= 1)%nat
        /\ (length (applies (foldl (fun acc st => init st acc)
                               (newStoreAt self config) states)) <= 1)%nat
        /\ (tabHandlers (foldl (fun acc st => init st acc)
                           (newStoreAt self config) states) <= 1)%nat
        /\ (connects (foldl (fun acc st => init st acc)
                        (newStoreAt self config) states) <= 1)%nat).
Proof.
  split_and!.
  - apply init_initialized.
  - intros state w. apply initBegin_initialized, init_initialized.
  - apply init_again.
  - intros self config [|state states]; simpl.
    + destruct config as [id st ets pd url opts].
      unfold newStoreAt, loads, applies, tabHandlers, connects. simpl.
      destruct st; simpl; repeat (rewrite ?filter_cons, ?filter_nil; simpl;
            try case_decide; simpl; try done); lia.
    + rewrite init_many. apply init_fresh_counts.
Qed.
(** *** Loading the persisted state *)

(** The blob loaded by [init()] is applied with no origin, the update
    handler of the persistence is already registered by the constructor, and
    the load schedules a debounced persist that later saves the loaded
    state again. *)
Lemma loading_schedules_persist :
  observers (ydoc (store (newStore localConfig))) = [ObsPersist]
  /\ applies (init (Some {[1%nat]}) (newStore localConfig))
     = [({[1%nat]}, OriginNone)]
  /\ scheduled (init (Some {[1%nat]}) (newStore localConfig)) = 1%nat
  /\ timers (init (Some {[1%nat]}) (newStore localConfig)) = [0%nat]
  /\ saves (fireTimer 0 (init (Some {[1%nat]}) (newStore localConfig)))
     = [("my-app", {[1%nat]})].
Proof. split_and!; vm_compute; reflexivity. Qed.

(** C5, as the code has it. With a storage adapter the constructor
    registers the update handler of the persistence; [init()] then applies
    the persisted blob, when there is one, with no origin, and a blob that
    brings something new schedules one debounced persist, which saves the
    loaded state when its timer fires. With no blob nothing is applied and
    nothing is scheduled. *)
Theorem init_load_is_untagged_and_persisted self config (u : Update) :
  cfgStorage config = true ->
  u <> ∅ ->
  ObsPersist ∈ observers (ydoc (store (newStoreAt self config)))
  /\ trace (newStoreAt self config) = []
  /\ loads (init (Some u) (newStoreAt self config)) = [cfgStoreId config]
  /\ applies (init (Some u) (newStoreAt self config)) = [(u, OriginNone)]
  /\ scheduled (init (Some u) (newStoreAt self config)) = 1%nat
  /\ timers (init (Some u) (newStoreAt self config)) = [0%nat]
  /\ saves (fireTimer 0 (init (Some u) (newStoreAt self config)))
     = [(cfgStoreId config, u)]
  /\ applies (init None (newStoreAt self config)) = []
  /\ scheduled (init None (newStoreAt self config)) = 0%nat.
Proof.
  intros Hst Hu. destruct config as [id st ets pd url opts].
  simpl in Hst. subst st.
  assert (Hsub : ~ u ⊆ (∅ : gset nat)) by set_solver.
  unfold init, initBegin, initResume, newStoreAt. simpl.
  unfold applyUpdate, transact. simpl.
  rewrite (decide_False (P := u ⊆ ∅)) by done.
  destruct (decide (ets <> Some false)), url as [?|]; simpl;
    (split_and!;
     [ apply list_elem_of_here | done | done | done | done | done
     | unfold fireTimer, persist, saves; simpl; by rewrite (left_id_L ∅ (∪))
     | done | done ]).
Qed.

Lemma init_load_is_untagged_and_persisted_witness :
  cfgStorage localConfig = true
  /\ ({[1%nat]} : Update) <> ∅
  /\ applies (init (Some {[1%nat]}) (newStoreAt 0 localConfig))
     = [({[1%nat]}, OriginNone)].
Proof.
  assert (H1 : cfgStorage localConfig = true) by reflexivity.
  assert (H2 : ({[1%nat]} : Update) <> ∅).
  { intros H. apply (f_equal (fun s : gset nat => bool_decide (1%nat ∈ s))) in H.
    vm_compute in H. discriminate H. }
  split; [exact H1|]. split; [exact H2|].
  apply (init_load_is_untagged_and_persisted 0 localConfig _ H1 H2).
Defined.

(** *** The circuit breaker *)

Lemma notify_fold status ls : forall w,
  trace (foldl (fun acc l => log (EvNotify l status) acc) w ls)
  = trace w ++ map (fun l => EvNotify l status) ls
  /\ store (foldl (fun acc l => log (EvNotify l status) acc) w ls) = store w
  /\ timers (foldl (fun acc l => log (EvNotify l status) acc) w ls) = timers w.
Proof.
  induction ls as [|l ls IH]; intros w; simpl.
  - by rewrite app_nil_r.
  - destruct (IH (log (EvNotify l status) w)) as (H1 & H2 & H3).
    rewrite H1, H2, H3. simpl. by rewrite <- app_assoc.
Qed.

Lemma notifyAll_frame status w :
  trace (notifyAll status w)
  = trace w ++ map (fun l => EvNotify l status) (statusListeners (store w))
  /\ store (notifyAll status w) = store w
  /\ timers (notifyAll status w) = timers w.
Proof. apply notify_fold. Qed.

Lemma connects_app w evs w' :
  trace w' = trace w ++ evs -> Forall (fun e => isConnect e = false) evs ->
  connects w' = connects w.
Proof. intros Ht HF. apply extends_connects. by exists evs. Qed.

Lemma notify_not_connect status (ls : list nat) :
  Forall (fun e => isConnect e = false) (map (fun l => EvNotify l status) ls).
Proof. apply Forall_forall. intros e Hin. apply list_elem_of_fmap in Hin as (l & -> & _). done. Qed.

Lemma onStatus_frame status w :
  trace (onStatus status w)
  = trace w ++ map (fun l => EvNotify l status) (statusListeners (store w))
  /\ websocketProvider (store (onStatus status w)) = websocketProvider (store w)
  /\ websocketFailures (store (onStatus status w))
     = (if decide (status = "connected") then 0
        else websocketFailures (store w)).
Proof.
  unfold onStatus.
  destruct (decide (status = "connected"));
    match goal with
    | |- context [notifyAll ?s ?w1] =>
        destruct (notifyAll_frame s w1) as (H1 & H2 & _); rewrite H1, H2
    end; done.
Qed.

Lemma providerFlags_frame status w :
  trace (providerFlags status w) = trace w
  /\ statusListeners (store (providerFlags status w))
     = statusListeners (store w)
  /\ websocketFailures (store (providerFlags status w))
     = websocketFailures (store w)
  /\ (breakerOpen w -> breakerOpen (providerFlags status w)).
Proof.
  unfold providerFlags, breakerOpen.
  destruct (websocketProvider (store w)) as [p|] eqn:Hp; [|by rewrite Hp].
  repeat case_decide; simpl; rewrite ?Hp;
    (split_and!; [done | done | done |]);
    intros (p' & [= <-] & Hsc); eauto.
Qed.

(** Once the breaker has tripped, no event of the network leads to a
    connect attempt, and the breaker stays tripped. *)
Lemma netStep_open e w :
  breakerOpen w ->
  breakerOpen (netStep e w) /\ connects (netStep e w) = connects w.
Proof.
  intros Hopen. pose proof Hopen as (p & Hp & Hsc).
  unfold netStep. rewrite Hp. destruct e as [status| |].
  - destruct (providerFlags_frame status w) as (Ht & _ & _ & Hb).
    destruct (onStatus_frame status (providerFlags status w))
      as (Ht' & Hp' & _).
    split.
    + destruct (Hb Hopen) as (p' & Hp'' & Hsc').
      exists p'. by rewrite Hp'.
    + eapply connects_app; [rewrite Ht', Ht; done|]. apply notify_not_connect.
  - unfold onConnectionError. simpl.
    case_decide; [|split; [by exists p | done]].
    rewrite Hp. unfold setShouldConnect, providerDisconnect. simpl.
    rewrite Hp. simpl.
    match goal with
    | |- context [notifyAll ?s ?w1] =>
        destruct (notifyAll_frame s w1) as (H1 & H2 & _)
    end.
    split.
    + eexists. rewrite H2. simpl. done.
    + eapply connects_app; [rewrite H1; simpl; by rewrite <- app_assoc|].
      constructor; [done|]. apply notify_not_connect.
  - unfold providerReconnect. rewrite Hp, Hsc. split; [by exists p | done].
Qed.

Lemma netRun_open es : forall w,
  breakerOpen w ->
  breakerOpen (netRun es w) /\ connects (netRun es w) = connects w.
Proof.
  induction es as [|e es IH]; intros w Hopen; simpl; [done|].
  destruct (netStep_open e w Hopen) as [H1 H2].
  destruct (IH _ H1) as [H3 H4]. split; [done|]. by rewrite H4.
Qed.

(** Errors below the threshold change nothing but the counter. *)
Lemma errors_below_threshold (n : nat) : forall w p,
  websocketProvider (store w) = Some p ->
  websocketFailures (store w) + Z.of_nat n < maxWebsocketFailures (store w) ->
  trace (netRun (replicate n NetConnectionError) w) = trace w
  /\ websocketProvider (store (netRun (replicate n NetConnectionError) w))
     = Some p
  /\ websocketFailures (store (netRun (replicate n NetConnectionError) w))
     = websocketFailures (store w) + Z.of_nat n
  /\ maxWebsocketFailures (store (netRun (replicate n NetConnectionError) w))
     = maxWebsocketFailures (store w)
  /\ statusListeners (store (netRun (replicate n NetConnectionError) w))
     = statusListeners (store w).
Proof.
  induction n as [|n IH]; intros w p Hp Hlt; simpl.
  - split_and!; try done. lia.
  - assert (Hstep : netStep NetConnectionError w
                    = withStore (fun s => setWebsocketFailures
                                            (websocketFailures s + 1) s) w).
    { unfold netStep, onConnectionError. rewrite Hp. simpl.
      rewrite decide_False by lia. done. }
    rewrite Hstep.
    destruct (IH (withStore (fun s => setWebsocketFailures
                                        (websocketFailures s + 1) s) w) p)
      as (H1 & H2 & H3 & H4 & H5); [done | simpl; lia |].
    rewrite H1, H2, H3, H4, H5. simpl. split_and!; try done. lia.
Qed.
(** C6. With a provider, each [connection-error] adds one to the failure
    counter; when the counter reaches [maxFailures] (3 when not configured)
    the auto-reconnect flag is cleared, [disconnect()] is called and every
    status listener is told "disconnected", and from then on no event of the
    network leads to a connect attempt; below the threshold nothing else
    happens. A [status] event "connected" sets the counter to zero, after
    which it again takes [maxFailures] errors to trip. *)
Theorem circuit_breaker w p :
  websocketProvider (store w) = Some p ->
  websocketFailures (store (netStep NetConnectionError w))
  = websocketFailures (store w) + 1
  /\ maxWebsocketFailures (store (netStep NetConnectionError w))
     = maxWebsocketFailures (store w)
  /\ (websocketFailures (store w) + 1 >= maxWebsocketFailures (store w) ->
      trace (netStep NetConnectionError w)
      = trace w
        ++ EvDisconnect
           :: map (fun l => EvNotify l "disconnected")
                (statusListeners (store w))
      /\ breakerOpen (netStep NetConnectionError w)
      /\ forall es,
           connects (netRun es (netStep NetConnectionError w))
           = connects (netStep NetConnectionError w)
           /\ breakerOpen (netRun es (netStep NetConnectionError w)))
  /\ (websocketFailures (store w) + 1 < maxWebsocketFailures (store w) ->
      trace (netStep NetConnectionError w) = trace w
      /\ websocketProvider (store (netStep NetConnectionError w)) = Some p)
  /\ websocketFailures (store (netStep (NetStatus "connected") w)) = 0
  /\ trace (netStep (NetStatus "connected") w)
     = trace w
       ++ map (fun l => EvNotify l "connected") (statusListeners (store w))
  /\ (forall n : nat,
        Z.of_nat n < maxWebsocketFailures (store w) ->
        trace (netRun (replicate n NetConnectionError)
                 (netStep (NetStatus "connected") w))
        = trace (netStep (NetStatus "connected") w)
        /\ websocketFailures
             (store (netRun (replicate n NetConnectionError)
                       (netStep (NetStatus "connected") w)))
           = Z.of_nat n)
  /\ (forall self config,
        cfgWebsocketOptions config ≫= maxFailures = None ->
        maxWebsocketFailures (store (newStoreAt self config)) = 3).
Proof.
  intros Hp.
  assert (Hconn : exists p',
            websocketProvider (store (netStep (NetStatus "connected") w))
            = Some p'
            /\ websocketFailures (store (netStep (NetStatus "connected") w)) = 0
            /\ maxWebsocketFailures
                 (store (netStep (NetStatus "connected") w))
               = maxWebsocketFailures (store w)
            /\ trace (netStep (NetStatus "connected") w)
               = trace w ++ map (fun l => EvNotify l "connected")
                              (statusListeners (store w))).
  { unfold netStep. rewrite Hp. unfold providerFlags. rewrite Hp. simpl.
    unfold onStatus. simpl.
    match goal with
    | |- context [notifyAll ?s ?w1] =>
        destruct (notifyAll_frame s w1) as (H1 & H2 & _); rewrite H1, H2
    end. simpl. eauto. }
  destruct Hconn as (p' & Hp' & Hf' & Hm' & Ht').
  split_and!.
  - unfold netStep, onConnectionError. rewrite Hp. simpl.
    case_decide; [|done]. rewrite Hp.
    match goal with
    | |- context [notifyAll ?s ?w1] =>
        destruct (notifyAll_frame s w1) as (_ & H2 & _); rewrite H2
    end.
    unfold setShouldConnect, providerDisconnect. simpl. rewrite Hp. done.
  - unfold netStep, onConnectionError. rewrite Hp. simpl.
    case_decide; [|done]. rewrite Hp.
    match goal with
    | |- context [notifyAll ?s ?w1] =>
        destruct (notifyAll_frame s w1) as (_ & H2 & _); rewrite H2
    end.
    unfold setShouldConnect, providerDisconnect. simpl. rewrite Hp. done.
  - intros Hge.
    assert (Hopen : breakerOpen (netStep NetConnectionError w)
                    /\ trace (netStep NetConnectionError w)
                       = trace w
                         ++ EvDisconnect
                            :: map (fun l => EvNotify l "disconnected")
                                 (statusListeners (store w))).
    { unfold breakerOpen, netStep, onConnectionError. rewrite Hp. simpl.
      rewrite decide_True by lia. rewrite Hp.
      unfold setShouldConnect, providerDisconnect. simpl. rewrite Hp. simpl.
      match goal with
      | |- context [notifyAll ?s ?w1] =>
          destruct (notifyAll_frame s w1) as (H1 & H2 & _); rewrite H1, H2
      end. simpl. split; [eexists; done | by rewrite <- app_assoc]. }
    destruct Hopen as [Hopen Htr]. split_and!; try done.
    intros es. destruct (netRun_open es _ Hopen) as [H1 H2]. done.
  - intros Hlt. unfold netStep, onConnectionError. rewrite Hp. simpl.
    by rewrite decide_False by lia.
  - exact Hf'.
  - exact Ht'.
  - intros n Hn.
    destruct (errors_below_threshold n _ p' Hp') as (H1 & _ & H3 & _);
      [rewrite Hf', Hm'; lia|].
    rewrite H1, H3, Hf'. split; [done | lia].
  - intros self config Hopt. unfold newStoreAt. simpl. by rewrite Hopt.
Qed.

(** With the default threshold of 3, the third error in a row trips the
    breaker of a store with one status listener. *)
Lemma circuit_breaker_witness :
  websocketProvider
    (store (netRun [NetConnectionError; NetConnectionError]
              (onStatusChange 7 (init None (newStore fullConfig)))))
  = Some {| shouldConnect := true; wsconnected := false;
            wsconnecting := false; maxBackoffTime := 3000 |}
  /\ trace (netStep NetConnectionError
              (netRun [NetConnectionError; NetConnectionError]
                 (onStatusChange 7 (init None (newStore fullConfig)))))
     = [EvLoad "my-app"; EvConnect; EvDisconnect; EvNotify 7 "disconnected"].
Proof.
  assert (Hp : websocketProvider
                 (store (netRun [NetConnectionError; NetConnectionError]
                           (onStatusChange 7
                              (init None (newStore fullConfig)))))
               = Some {| shouldConnect := true; wsconnected := false;
                         wsconnecting := false; maxBackoffTime := 3000 |})
    by reflexivity.
  split; [exact Hp|].
  destruct (circuit_breaker _ _ Hp) as (_ & _ & Htrip & _).
  destruct Htrip as (Htr & _); [vm_compute; discriminate|].
  rewrite Htr. reflexivity.
Defined.

(** *** Disposing *)

Lemma disposeTeardown_frame w :
  timers (disposeTeardown w) = timers w
  /\ trace (disposeTeardown w) = trace w ++ teardownEvents (store w)
  /\ persistTimer (store (disposeTeardown w)) = persistTimer (store w).
Proof.
  unfold disposeTeardown, teardownEvents, tabSyncDispose, providerDisconnect.
  destruct (tabSync (store w)) as [t|] eqn:Ht;
    destruct (websocketProvider (store w)) as [p|] eqn:Hp;
    destruct (storage (store w)) eqn:Hs; simpl;
    rewrite ?Hp, ?Hs; simpl; rewrite ?Hp, ?Hs; simpl;
    rewrite <- ?app_assoc; done.
Qed.

Lemma teardown_no_save s :
  Forall (fun e => saveOf e = None) (teardownEvents s).
Proof.
  unfold teardownEvents.
  destruct (tabSync s), (websocketProvider s), (storage s); simpl;
    repeat constructor.
Qed.

Lemma fireTimer_idle ids : forall w,
  timers w = [] -> foldl (fun acc t => fireTimer t acc) w ids = w.
Proof.
  induction ids as [|t ids IH]; intros w Ht; simpl; [done|].
  unfold fireTimer at 2. rewrite Ht.
  rewrite decide_False by apply not_elem_of_nil. by apply IH.
Qed.

(** C7. With a storage adapter, a write followed at once by [dispose()]:
    the write leaves one debounce timer pending and nothing saved;
    [dispose()] clears that timer and saves the full state once, the saved
    blob holds the write, the teardown of tab sync, provider, document and
    storage adapter comes after the save, and no timer is left to save a
    second time. *)
Theorem dispose_flushes_once w (u : Update) :
  storage (store w) = true ->
  ObsPersist ∈ observers (ydoc (store w)) ->
  timersTracked w ->
  ~ u ⊆ items (ydoc (store w)) ->
  oneTimer (localWrite u w)
  /\ saves (localWrite u w) = saves w
  /\ (exists blob,
        saves (dispose (localWrite u w)) = saves w ++ [(storeId (store w), blob)]
        /\ blob = encodeStateAsUpdate (ydoc (store (localWrite u w)))
        /\ u ⊆ blob)
  /\ (exists t,
        persistTimer (store (localWrite u w)) = Some t
        /\ trace (dispose (localWrite u w))
           = trace (localWrite u w)
             ++ [EvClearTimeout t;
                 EvSave (storeId (store w))
                   (encodeStateAsUpdate (ydoc (store (localWrite u w))))]
             ++ teardownEvents (store (localWrite u w)))
  /\ timers (dispose (localWrite u w)) = []
  /\ persistTimer (store (dispose (localWrite u w))) = None
  /\ forall ids,
       foldl (fun acc t => fireTimer t acc) (dispose (localWrite u w)) ids
       = dispose (localWrite u w).
Proof.
  intros Hs Hobs Htr Hu. unfold localWrite.
  destruct (transact_fields u OriginNone w)
    as (Hdoc & Hst & Hid & Htab & Hprov & _).
  destruct (transact_frame u OriginNone w) as [_ Hext].
  destruct (transact_timers u OriginNone w Htr) as [_ Hone].
  specialize (Hone Hu Hobs). destruct Hone as (t & Htm & Hpt).
  set (w1 := transact u OriginNone w) in *.
  assert (Hsaves : saves w1 = saves w).
  { apply extends_saves. apply (extends_weaken handlerEvent); [|done].
    by intros []. }
  assert (Hbegin : trace (disposeBegin w1)
                   = trace w1 ++ [EvClearTimeout t;
                                  EvSave (storeId (store w))
                                    (encodeStateAsUpdate (ydoc (store w1)))]
                   /\ timers (disposeBegin w1) = []
                   /\ store (disposeBegin w1)
                      = setPersistTimer None (store w1)).
  { unfold disposeBegin. rewrite Hpt. unfold persist. simpl.
    rewrite Hst, Hs, Hid. simpl. rewrite Htm, filter_ne_singleton.
    by rewrite <- app_assoc. }
  destruct Hbegin as (Hb1 & Hb2 & Hb3).
  destruct (disposeTeardown_frame (disposeBegin w1)) as (Ht1 & Ht2 & Ht3).
  assert (Htrace : trace (dispose w1)
                   = trace w1
                     ++ [EvClearTimeout t;
                         EvSave (storeId (store w))
                           (encodeStateAsUpdate (ydoc (store w1)))]
                     ++ teardownEvents (store w1)).
  { unfold dispose, disposeEnd. simpl. rewrite Ht2, Hb1, Hb3.
    by rewrite <- app_assoc. }
  assert (Htimers : timers (dispose w1) = []).
  { unfold dispose, disposeEnd. simpl. by rewrite Ht1. }
  split_and!.
  - by exists t.
  - done.
  - exists (encodeStateAsUpdate (ydoc (store w1))). split_and!; [|done|].
    + unfold saves in *. rewrite Htrace, !omap_app. simpl.
      rewrite (omap_none _ _ (teardown_no_save _)). by rewrite Hsaves.
    + rewrite Hdoc. unfold encodeStateAsUpdate, integrate. simpl. set_solver.
  - by exists t.
  - done.
  - unfold dispose, disposeEnd. simpl. by rewrite Ht3, Hb3.
  - intros ids. by apply fireTimer_idle.
Qed.
Lemma dispose_flushes_once_witness :
  storage (store (init None (newStore localConfig))) = true
  /\ saves (dispose (localWrite {[1%nat]} (init None (newStore localConfig))))
     = [("my-app", {[1%nat]})].
Proof.
  assert (H1 : storage (store (init None (newStore localConfig))) = true)
    by reflexivity.
  assert (H2 : ObsPersist
               ∈ observers (ydoc (store (init None (newStore localConfig)))))
    by apply list_elem_of_here.
  assert (H3 : timersTracked (init None (newStore localConfig))).
  { intros t Hin. vm_compute in Hin. by apply not_elem_of_nil in Hin. }
  assert (H4 : ~ ({[1%nat]} : Update)
                 ⊆ items (ydoc (store (init None (newStore localConfig))))).
  { change (items (ydoc (store (init None (newStore localConfig)))))
      with (∅ : gset nat).
    intros Hsub. apply (not_elem_of_empty (C := gset nat) 1%nat).
    apply Hsub. by apply elem_of_singleton. }
  split; [exact H1|].
  destruct (dispose_flushes_once _ _ H1 H2 H3 H4)
    as (_ & _ & (blob & Hsaves & -> & _) & _).
  rewrite Hsaves. vm_compute. reflexivity.
Defined.

(** *** Tab sync *)

Lemma applyUpdate_own u t w :
  tabSync (store w) = Some t ->
  applies (applyUpdate u (OriginTabSync (tsSelf t)) w)
  = applies w ++ [(u, OriginTabSync (tsSelf t))]
  /\ posts (applyUpdate u (OriginTabSync (tsSelf t)) w) = posts w.
Proof.
  intros Ht. unfold applyUpdate.
  pose proof (transact_own u t (log (EvApply u (OriginTabSync (tsSelf t))) w) Ht)
    as Hext.
  split.
  - rewrite (extends_applies (log (EvApply u (OriginTabSync (tsSelf t))) w));
      [unfold applies; simpl; by rewrite omap_app|].
    apply (extends_weaken timerEvent); [by intros [] | done].
  - rewrite (extends_posts (log (EvApply u (OriginTabSync (tsSelf t))) w));
      [unfold posts; simpl; by rewrite omap_app, app_nil_r|].
    apply (extends_weaken timerEvent); [by intros [] | done].
Qed.

Lemma tabOnMessage_posts m w : posts (tabOnMessage m w) = posts w.
Proof.
  unfold tabOnMessage. destruct (tabSync (store w)) as [t|] eqn:Ht; [|done].
  destruct (onmessage t && negb (channelClosed t)); [|done].
  case_decide; [|done]. by apply applyUpdate_own.
Qed.

(** *** The broadcast bus *)

Lemma postedBy_same j b a : posts a = posts b -> postedBy j b a = [].
Proof.
  intros Hp. unfold postedBy. destruct (tabSync (store a)); [|done].
  by rewrite Hp, drop_all.
Qed.

Lemma postedAll_silent (f : nat -> World -> World) nodes : forall j,
  (forall k w, posts (f k w) = posts w) ->
  postedAll j nodes (imap f nodes) = [].
Proof.
  revert f. induction nodes as [|w nodes IH]; intros f j Hf; simpl; [done|].
  rewrite postedBy_same by apply Hf. simpl. apply IH. intros k w'. apply Hf.
Qed.

(** A delivery makes no receiver post. *)
Lemma deliver_silent p nodes : postedAll 0 nodes (deliver p nodes) = [].
Proof.
  apply postedAll_silent. intros k w.
  destruct (bool_decide (k <> sender p) && listensTo (channel p) w); [|done].
  apply tabOnMessage_posts.
Qed.

(** A delivery leaves the sender alone. *)
Lemma deliver_sender p nodes :
  deliver p nodes !! sender p = nodes !! sender p.
Proof.
  unfold deliver. rewrite list_lookup_imap.
  destruct (nodes !! sender p) as [w|]; [|done]. simpl.
  rewrite bool_decide_eq_false_2 by (intros H; by apply H). done.
Qed.

Lemma pump_own_messages i fuel : forall queue nodes,
  Forall (fun p => sender p = i) queue ->
  (pump fuel queue nodes).2 !! i = nodes !! i
  /\ ((length queue <= fuel)%nat -> (pump fuel queue nodes).1 = []).
Proof.
  induction fuel as [|fuel IH]; intros queue nodes Hq; simpl.
  - split; [done|]. intros Hl. destruct queue; [done | simpl in Hl; lia].
  - destruct queue as [|p queue]; simpl; [done|].
    apply Forall_cons in Hq as [Hp Hq].
    rewrite deliver_silent, app_nil_r.
    destruct (IH queue (deliver p nodes) Hq) as [H1 H2].
    split; [|intros Hl; apply H2; lia].
    rewrite H1. rewrite <- Hp. apply deliver_sender.
Qed.

Lemma postedBy_sender j b a : Forall (fun p => sender p = j) (postedBy j b a).
Proof.
  unfold postedBy. destruct (tabSync (store a)); [|constructor].
  apply Forall_fmap, Forall_forall. by intros m _.
Qed.

Lemma localWrite_applies u w : applies (localWrite u w) = applies w.
Proof.
  apply extends_applies.
  apply (extends_weaken handlerEvent); [by intros []|].
  apply transact_frame.
Qed.

(** C8. A message of the bus that is for this store is applied with the
    [TabSync] instance as origin; the update handler of tab sync posts an
    update exactly when its origin is not that instance; so handling a
    message posts nothing, and on a bus of any number of stores a write is
    never delivered back to the store that made it: that store is left as
    the write left it, with no [applyUpdate] more, and once the posts of the
    write are delivered the bus is empty. *)
Theorem no_self_echo :
  (forall w t m,
     tabSync (store w) = Some t -> onmessage t = true ->
     channelClosed t = false ->
     msgType m = "update" -> msgStoreId m = tsStoreId t ->
     applies (tabOnMessage m w)
     = applies w ++ [(msgUpdate m, OriginTabSync (tsSelf t))])
  /\ (forall t u o w,
        posts (tabUpdateHandler t u o w)
        = posts w
          ++ (if decide (o = OriginTabSync (tsSelf t)) then []
              else [{| msgType := "update"; msgStoreId := tsStoreId t;
                       msgUpdate := u |}]))
  /\ (forall m w, posts (tabOnMessage m w) = posts w)
  /\ (forall fuel i u nodes w,
        nodes !! i = Some w ->
        (writeAt fuel i u nodes).2 !! i = Some (localWrite u w)
        /\ applies (localWrite u w) = applies w
        /\ ((length (postedBy i w (localWrite u w)) <= fuel)%nat ->
            (writeAt fuel i u nodes).1 = [])).
Proof.
  split_and!.
  - intros w t m Ht Hon Hcl Hty Hid. unfold tabOnMessage.
    rewrite Ht, Hon, Hcl. simpl. rewrite decide_True by done.
    by apply applyUpdate_own.
  - intros t u o w. unfold tabUpdateHandler, broadcastUpdate.
    destruct (decide (o = OriginTabSync (tsSelf t))) as [->|Hne].
    + rewrite decide_False by (intros H; by apply H). by rewrite app_nil_r.
    + rewrite decide_True by done. unfold posts. simpl. by rewrite omap_app.
  - apply tabOnMessage_posts.
  - intros fuel i u nodes w Hi. unfold writeAt. rewrite Hi.
    destruct (pump_own_messages i fuel (postedBy i w (localWrite u w))
                (<[i:=localWrite u w]> nodes) (postedBy_sender _ _ _))
      as [H1 H2].
    split_and!; [|apply localWrite_applies|done].
    rewrite H1. apply list_lookup_insert_eq. by apply lookup_lt_Some in Hi.
Qed.
(** Three tabs: the write of the first reaches the two others and does not
    come back. *)
Lemma no_self_echo_witness :
  threeTabs !! 0%nat = Some (init None (newStoreAt 0 localConfig))
  /\ (writeAt 1 0 {[1%nat]} threeTabs).2 !! 0%nat
     = Some (localWrite {[1%nat]} (init None (newStoreAt 0 localConfig)))
  /\ (writeAt 1 0 {[1%nat]} threeTabs).1 = []
  /\ map (fun w => length (applies w)) (writeAt 1 0 {[1%nat]} threeTabs).2
     = [0%nat; 1%nat; 1%nat].
Proof.
  assert (H0 : threeTabs !! 0%nat
               = Some (init None (newStoreAt 0 localConfig)))
    by reflexivity.
  destruct no_self_echo as (_ & _ & _ & Hbus).
  destruct (Hbus 1%nat 0%nat {[1%nat]} threeTabs _ H0) as (H1 & _ & H2).
  split_and!; [exact H0 | exact H1 | | vm_compute; reflexivity].
  apply H2. vm_compute. lia.
Defined.

(** *** Stores without a network channel *)

Lemma initFinish_no_provider w :
  websocketProvider (store w) = None ->
  websocketProvider (store (initFinish w)) = None.
Proof.
  intros Hp. unfold initFinish, providerConnect, tabSyncInit.
  destruct (tabSync (store w)); simpl; rewrite Hp; simpl; done.
Qed.

Lemma applyUpdate_provider u o w :
  websocketProvider (store (applyUpdate u o w)) = websocketProvider (store w).
Proof.
  unfold applyUpdate.
  destruct (transact_fields u o (log (EvApply u o) w))
    as (_ & _ & _ & _ & -> & _). done.
Qed.

Lemma persist_provider w :
  websocketProvider (store (persist w)) = websocketProvider (store w).
Proof. by destruct (persist_frame w) as [-> _]. Qed.

Lemma step_no_provider op w :
  websocketProvider (store w) = None ->
  websocketProvider (store (step op w)) = None.
Proof.
  intros Hp. destruct op; simpl.
  - unfold initBegin. destruct (initialized (store w)); [done|].
    destruct (storage (store w)); [done|]. by apply initFinish_no_provider.
  - unfold initResume. apply initFinish_no_provider.
    destruct state; [by rewrite applyUpdate_provider | done].
  - unfold localWrite.
    destruct (transact_fields update OriginNone w)
      as (_ & _ & _ & _ & -> & _). done.
  - unfold tabOnMessage. destruct (tabSync (store w)) as [t|]; [|done].
    destruct (onmessage t && negb (channelClosed t)); [|done].
    case_decide; [|done]. by rewrite applyUpdate_provider.
  - unfold fireTimer. case_decide; [|done]. by rewrite persist_provider.
  - by rewrite persist_provider.
  - unfold disposeBegin. rewrite persist_provider.
    by destruct (persistTimer (store w)).
  - unfold disposeTeardown, tabSyncDispose.
    destruct (tabSync (store w)); simpl; rewrite Hp; simpl;
      destruct (storage (store w)); simpl; done.
  - done.
  - unfold netStep. by rewrite Hp.
  - unfold onStatusChange. by case_decide.
  - done.
Qed.

Lemma run_no_provider ops : forall w,
  websocketProvider (store w) = None ->
  websocketProvider (store (run ops w)) = None.
Proof.
  induction ops as [|op ops IH]; intros w Hp; simpl; [done|].
  apply IH. by apply step_no_provider.
Qed.
(** *** The timers of a store are tracked in every state it can reach *)

Lemma tracked_same w w' :
  timers w' = timers w ->
  persistTimer (store w') = persistTimer (store w) ->
  timersTracked w -> timersTracked w'.
Proof. intros Ht Hp Htr t. rewrite Ht, Hp. apply Htr. Qed.

Lemma initFinish_timers w :
  timers (initFinish w) = timers w
  /\ persistTimer (store (initFinish w)) = persistTimer (store w).
Proof.
  unfold initFinish, providerConnect, tabSyncInit.
  destruct (tabSync (store w)); simpl;
    destruct (websocketProvider (store w)); simpl; done.
Qed.

Lemma netStep_timers e w :
  timers (netStep e w) = timers w
  /\ persistTimer (store (netStep e w)) = persistTimer (store w).
Proof.
  unfold netStep. destruct (websocketProvider (store w)) as [p|] eqn:Hp;
    [|done].
  destruct e as [status| |].
  - unfold onStatus.
    match goal with
    | |- context [notifyAll ?s ?w1] =>
        destruct (notifyAll_frame s w1) as (_ & H2 & H3); rewrite H2, H3
    end.
    unfold providerFlags. rewrite Hp. repeat case_decide; done.
  - unfold onConnectionError. simpl. case_decide; [|done]. rewrite Hp.
    match goal with
    | |- context [notifyAll ?s ?w1] =>
        destruct (notifyAll_frame s w1) as (_ & H2 & H3); rewrite H2, H3
    end.
    unfold setShouldConnect, providerDisconnect. simpl. rewrite Hp. done.
  - unfold providerReconnect. rewrite Hp. by destruct (shouldConnect p).
Qed.

Lemma tracked_subset w w' :
  (forall t, t ∈ timers w' -> t ∈ timers w) ->
  persistTimer (store w') = persistTimer (store w) ->
  timersTracked w -> timersTracked w'.
Proof. intros Ht Hp Htr t Hin. rewrite Hp. apply Htr, Ht, Hin. Qed.

Lemma step_tracked op w : timersTracked w -> timersTracked (step op w).
Proof.
  intros Htr. destruct op; simpl.
  - unfold initBegin. destruct (initialized (store w)); [done|].
    destruct (storage (store w)); [done|].
    destruct (initFinish_timers w) as [H1 H2]. by apply (tracked_same w).
  - unfold initResume.
    match goal with
    | |- timersTracked (initFinish ?w1) =>
        destruct (initFinish_timers w1) as [H1 H2];
        apply (tracked_same w1); [done | done |]
    end.
    destruct state as [u|]; [|done]. unfold applyUpdate.
    by apply transact_timers.
  - by apply transact_timers.
  - unfold tabOnMessage. destruct (tabSync (store w)) as [t|]; [|done].
    destruct (onmessage t && negb (channelClosed t)); [|done].
    case_decide; [|done]. unfold applyUpdate. by apply transact_timers.
  - unfold fireTimer. case_decide; [|done].
    match goal with
    | |- timersTracked (persist ?w1) =>
        destruct (persist_frame w1) as [H1 H2];
        apply (tracked_same w1); [done | by rewrite H1 |]
    end.
    apply (tracked_subset w); [|done|done].
    intros t Hin. simpl in Hin. by apply list_elem_of_filter in Hin as [_ ?].
  - destruct (persist_frame w) as [H1 H2].
    apply (tracked_same w); [done | by rewrite H1 | done].
  - unfold disposeBegin.
    match goal with
    | |- timersTracked (persist ?w1) =>
        destruct (persist_frame w1) as [H1 H2];
        apply (tracked_same w1); [done | by rewrite H1 |]
    end.
    destruct (persistTimer (store w)) as [t|] eqn:Hp; [|done].
    intros t' Hin. simpl in Hin.
    rewrite (tracked_filter _ _ Htr Hp) in Hin.
    by apply not_elem_of_nil in Hin.
  - destruct (disposeTeardown_frame w) as (H1 & _ & H3).
    by apply (tracked_same w).
  - done.
  - destruct (netStep_timers e w) as [H1 H2]. by apply (tracked_same w).
  - unfold onStatusChange. by case_decide.
  - done.
Qed.

(** Every state a store can reach from its construction has its pending
    timers tracked. *)
Lemma run_tracked ops : forall w, timersTracked w -> timersTracked (run ops w).
Proof.
  induction ops as [|op ops IH]; intros w Htr; simpl; [done|].
  by apply IH, step_tracked.
Qed.

Lemma newStore_tracked self config : timersTracked (newStoreAt self config).
Proof. intros t Hin. simpl in Hin. by apply not_elem_of_nil in Hin. Qed.
End OrbitSpec.

(** ** Properties of the status hook *)

Module StatusSpec.
Import Orbit Status.

(** C9. The status shown to the consumer is "connecting", "connected" or
    "disconnected"; it is "disconnected" for a store without a provider,
    and so for a store constructed without a WebSocket URL, whatever has
    happened to it since. *)
Theorem status_is_one_of_three :
  (forall s : OrbitStore,
     getSnapshot s = "connecting" \/ getSnapshot s = "connected"
     \/ getSnapshot s = "disconnected")
  /\ (forall s : OrbitStore,
        websocketProvider s = None -> getSnapshot s = "disconnected")
  /\ (forall self config ops,
        cfgWebsocketUrl config = None ->
        getSnapshot (store (run ops (newStoreAt self config)))
        = "disconnected").
Proof.
  split_and!.
  - intros s. unfold getSnapshot.
    destruct (websocketProvider s) as [p|]; [|by right; right].
    destruct (wsconnected p); [by right; left|].
    destruct (wsconnecting p); [by left | by right; right].
  - intros s Hp. unfold getSnapshot. by rewrite Hp.
  - intros self config ops Hurl. unfold getSnapshot.
    rewrite OrbitSpec.run_no_provider; [done|].
    unfold newStoreAt. simpl. by rewrite Hurl.
Qed.

(** A store with storage and tab sync only, after initialising, a write and
    the debounce timer. *)
Lemma status_is_one_of_three_witness :
  cfgWebsocketUrl localConfig = None
  /\ getSnapshot
       (store (run [OpInitBegin; OpInitResume None; OpWrite {[1%nat]};
                    OpTimer 0]
                 (newStoreAt 0 localConfig)))
     = "disconnected".
Proof.
  assert (H : cfgWebsocketUrl localConfig = None) by reflexivity.
  split; [exact H|].
  destruct status_is_one_of_three as (_ & _ & Hrun).
  apply (Hrun 0%nat localConfig _ H).
Defined.

End StatusSpec.

(** ** More properties of the store *)

Module OrbitExtra.
Import Orbit OrbitMore OrbitSpec.

(** *** Debounced persistence *)

Lemma transact_observers u o w :
  observers (ydoc (store (transact u o w))) = observers (ydoc (store w)).
Proof. destruct (transact_fields u o w) as (-> & _). done. Qed.

Lemma transact_items u o w :
  items (ydoc (store (transact u o w))) = items (ydoc (store w)) ∪ u.
Proof. destruct (transact_fields u o w) as (-> & _). done. Qed.

Lemma transact_oneTimer u o w : oneTimer w -> oneTimer (transact u o w).
Proof.
  intros Hone. unfold transact.
  destruct (decide (u ⊆ items (ydoc (store w)))); [exact Hone|].
  apply observers_fold_timers; [by apply oneTimer_tracked | by right].
Qed.

Lemma transact_saves u o w : saves (transact u o w) = saves w.
Proof.
  apply extends_saves. apply (extends_weaken handlerEvent); [by intros []|].
  apply transact_frame.
Qed.

Lemma writes_frame us : forall w,
  oneTimer w ->
  oneTimer (writes us w)
  /\ saves (writes us w) = saves w
  /\ storage (store (writes us w)) = storage (store w)
  /\ storeId (store (writes us w)) = storeId (store w)
  /\ items (ydoc (store (writes us w))) = items (ydoc (store w)) ∪ ⋃ us.
Proof.
  induction us as [|u us IH]; intros w Hone; simpl.
  - split_and!; try done. by rewrite (right_id_L ∅ (∪)).
  - destruct (IH (localWrite u w)) as (H1 & H2 & H3 & H4 & H5);
      [by apply transact_oneTimer|].
    unfold localWrite in *.
    destruct (transact_fields u OriginNone w) as (_ & Hst & Hid & _).
    rewrite H2, H3, H4, H5, transact_saves, transact_items, Hst, Hid.
    split_and!; try done. by rewrite (assoc_L (∪)).
Qed.

(** Writes made in a row are saved once: after a first write that changes
    the document and any number of further writes, one debounce timer is
    pending and nothing was saved; when that timer fires the state holding
    all the writes is saved, once, and no timer is left. *)
Theorem debounce_coalesces w (u : Update) (us : list Update) :
  storage (store w) = true ->
  ObsPersist ∈ observers (ydoc (store w)) ->
  timersTracked w ->
  ~ u ⊆ items (ydoc (store w)) ->
  saves (writes (u :: us) w) = saves w
  /\ exists t,
       timers (writes (u :: us) w) = [t]
       /\ saves (fireTimer t (writes (u :: us) w))
          = saves w
            ++ [(storeId (store w), items (ydoc (store w)) ∪ u ∪ ⋃ us)]
       /\ timers (fireTimer t (writes (u :: us) w)) = []
       /\ forall ids,
            saves (fireTimers ids (fireTimer t (writes (u :: us) w)))
            = saves (fireTimer t (writes (u :: us) w)).
Proof.
  intros Hs Hobs Htr Hu. simpl. unfold localWrite at 1 2 3 4 5 6.
  destruct (transact_timers u OriginNone w Htr) as [_ Hone].
  specialize (Hone Hu Hobs).
  destruct (writes_frame us _ Hone) as ((t & Ht & Hp) & H2 & H3 & H4 & H5).
  destruct (transact_fields u OriginNone w) as (_ & Hst & Hid & _).
  rewrite transact_saves, transact_items, Hst, Hid in *.
  split; [done|]. exists t.
  assert (Hfire : fireTimer t (writes us (transact u OriginNone w))
                  = log (EvSave (storeId (store w))
                           (items (ydoc (store w)) ∪ u ∪ ⋃ us))
                      {| store := store (writes us (transact u OriginNone w));
                         timers := [];
                         nextTimer :=
                           nextTimer (writes us (transact u OriginNone w));
                         nextClosure :=
                           nextClosure (writes us (transact u OriginNone w));
                         trace :=
                           trace (writes us (transact u OriginNone w)) |}).
  { unfold fireTimer. rewrite Ht, decide_True by apply list_elem_of_here.
    rewrite filter_ne_singleton. unfold persist. simpl.
    rewrite H3, Hs, H4. unfold encodeStateAsUpdate. by rewrite H5. }
  rewrite Hfire. split_and!; try done.
  - unfold saves in *. simpl. by rewrite omap_app, H2.
  - intros ids. unfold fireTimers. by rewrite fireTimer_idle.
Qed.

Lemma debounce_coalesces_witness :
  storage (store (init None (newStore localConfig))) = true
  /\ saves (fireTimer 2
              (writes [{[1%nat]}; {[2%nat]}; {[3%nat]}]
                 (init None (newStore localConfig))))
     = [("my-app", {[1%nat; 2%nat; 3%nat]})].
Proof.
  assert (H1 : storage (store (init None (newStore localConfig))) = true)
    by reflexivity.
  assert (H2 : ObsPersist
               ∈ observers (ydoc (store (init None (newStore localConfig)))))
    by apply list_elem_of_here.
  assert (H3 : timersTracked (init None (newStore localConfig))).
  { intros t Hin. vm_compute in Hin. by apply not_elem_of_nil in Hin. }
  assert (H4 : ~ ({[1%nat]} : Update)
                 ⊆ items (ydoc (store (init None (newStore localConfig))))).
  { change (items (ydoc (store (init None (newStore localConfig)))))
      with (∅ : gset nat).
    intros Hsub. apply (not_elem_of_empty (C := gset nat) 1%nat).
    apply Hsub. by apply elem_of_singleton. }
  split; [exact H1|].
  destruct (debounce_coalesces _ _ [{[2%nat]}; {[3%nat]}] H1 H2 H3 H4)
    as (_ & t & Ht & Hsaves & _).
  assert (Ht2 : t = 2%nat).
  { vm_compute in Ht. by injection Ht as <-. }
  subst t. rewrite Hsaves. vm_compute. reflexivity.
Defined.
(** *** At most one debounce timer *)

Lemma idle_or_one_tracked w :
  timers w = [] \/ oneTimer w -> timersTracked w.
Proof.
  intros [Ht|Hone]; [|by apply oneTimer_tracked].
  intros t Hin. rewrite Ht in Hin. by apply not_elem_of_nil in Hin.
Qed.

Lemma idle_or_one_same w w' :
  timers w' = timers w ->
  persistTimer (store w') = persistTimer (store w) ->
  timers w = [] \/ oneTimer w -> timers w' = [] \/ oneTimer w'.
Proof.
  intros Ht Hp [H0|(t & H1 & H2)]; [left; by rewrite Ht|].
  right. exists t. by rewrite Ht, Hp.
Qed.

Lemma runObserver_idle_or_one h u o w :
  timers w = [] \/ oneTimer w ->
  timers (runObserver h u o w) = [] \/ oneTimer (runObserver h u o w).
Proof.
  intros HJ. destruct h as [|c]; simpl.
  - right. by apply handleUpdate_oneTimer, idle_or_one_tracked.
  - destruct (tabSync (store w)) as [t|]; [|done].
    destruct (tabUpdateHandler_frame t u o w) as (Hs & Ht & _).
    apply (idle_or_one_same w); [done | by rewrite Hs | done].
Qed.

Lemma transact_idle_or_one u o w :
  timers w = [] \/ oneTimer w ->
  timers (transact u o w) = [] \/ oneTimer (transact u o w).
Proof.
  intros HJ. unfold transact.
  destruct (decide (u ⊆ items (ydoc (store w)))); [exact HJ|].
  assert (HJ1 : timers (withStore (setYdoc (integrate u (ydoc (store w)))) w)
                = []
                \/ oneTimer
                     (withStore (setYdoc (integrate u (ydoc (store w)))) w))
    by exact HJ.
  revert HJ1.
  generalize (withStore (setYdoc (integrate u (ydoc (store w)))) w).
  induction (observers (ydoc (store w))) as [|h hs IH]; intros w1 HJ1; simpl;
    [done|].
  by apply IH, runObserver_idle_or_one.
Qed.

Lemma step_idle_or_one op w :
  timers w = [] \/ oneTimer w ->
  timers (step op w) = [] \/ oneTimer (step op w).
Proof.
  intros HJ. destruct op; simpl.
  - unfold initBegin. destruct (initialized (store w)); [done|].
    destruct (storage (store w)); [done|].
    destruct (initFinish_timers w) as [H1 H2].
    by apply (idle_or_one_same w).
  - unfold initResume. destruct state as [u|].
    + destruct (initFinish_timers (applyUpdate u OriginNone w)) as [H1 H2].
      apply (idle_or_one_same _ (initFinish (applyUpdate u OriginNone w))
               H1 H2).
      unfold applyUpdate. by apply transact_idle_or_one.
    + destruct (initFinish_timers w) as [H1 H2].
      by apply (idle_or_one_same _ (initFinish w) H1 H2).
  - by apply transact_idle_or_one.
  - unfold tabOnMessage. destruct (tabSync (store w)) as [t|]; [|done].
    destruct (onmessage t && negb (channelClosed t)); [|done].
    case_decide; [|done]. unfold applyUpdate. by apply transact_idle_or_one.
  - unfold fireTimer. case_decide as Hin; [|done]. left.
    match goal with
    | |- timers (persist ?w1) = _ =>
        destruct (persist_frame w1) as [_ H2]; rewrite H2
    end.
    simpl. destruct HJ as [H0|(t & H1 & _)].
    + by rewrite H0.
    + rewrite H1 in *. apply list_elem_of_singleton in Hin as ->.
      apply filter_ne_singleton.
  - destruct (persist_frame w) as [H1 H2].
    apply (idle_or_one_same w); [done | by rewrite H1 | done].
  - left. unfold disposeBegin.
    match goal with
    | |- timers (persist ?w1) = _ =>
        destruct (persist_frame w1) as [_ H2]; rewrite H2
    end.
    destruct (persistTimer (store w)) as [t|] eqn:Hp; simpl.
    + apply (tracked_filter _ _ (idle_or_one_tracked _ HJ) Hp).
    + apply (tracked_none _ (idle_or_one_tracked _ HJ) Hp).
  - destruct (disposeTeardown_frame w) as (H1 & _ & H3).
    by apply (idle_or_one_same w).
  - done.
  - destruct (netStep_timers e w) as [H1 H2]. by apply (idle_or_one_same w).
  - unfold onStatusChange. by case_decide.
  - done.
Qed.

(** Whatever happens to a store after its construction, at most one
    debounce timer is pending, and it is the one [persistTimer] holds. *)
Theorem at_most_one_timer self config ops :
  (length (timers (run ops (newStoreAt self config))) <= 1)%nat
  /\ timersTracked (run ops (newStoreAt self config)).
Proof.
  assert (HJ : timers (run ops (newStoreAt self config)) = []
               \/ oneTimer (run ops (newStoreAt self config))).
  { assert (H0 : timers (newStoreAt self config) = []
                 \/ oneTimer (newStoreAt self config)) by (by left).
    revert H0. generalize (newStoreAt self config).
    induction ops as [|op ops IH]; intros w H0; simpl; [done|].
    by apply IH, step_idle_or_one. }
  split; [|by apply idle_or_one_tracked].
  destruct HJ as [->|(t & -> & _)]; simpl; lia.
Qed.
(** *** Frames of the operations *)

Lemma Forall_extends (P : Event -> Prop) w w' :
  Forall P (trace w) -> extends P w w' -> Forall P (trace w').
Proof. intros HF (evs & -> & HF'). by apply Forall_app. Qed.

Lemma initFinish_frame w :
  storage (store (initFinish w)) = storage (store w)
  /\ statusListeners (store (initFinish w)) = statusListeners (store w)
  /\ (tabSync (store w) = None -> tabSync (store (initFinish w)) = None)
  /\ (ObsPersist ∉ observers (ydoc (store w)) ->
      ObsPersist ∉ observers (ydoc (store (initFinish w))))
  /\ extends (fun e => e = EvConnect) w (initFinish w).
Proof.
  unfold initFinish, providerConnect, tabSyncInit.
  destruct (tabSync (store w)) as [t|] eqn:Ht; simpl;
    destruct (websocketProvider (store w)) as [p|] eqn:Hp; simpl;
    (split_and!; [done | done | done | |]);
    try (intros Hn; unfold docOn; case_decide; simpl; [done|];
         rewrite elem_of_app, list_elem_of_singleton;
         intros [?|?]; [done | discriminate]);
    try done;
    try (exists [EvConnect]; split; [done | by constructor]);
    try (exists []; split; [simpl; by rewrite app_nil_r | constructor]).
Qed.

Lemma netStep_frame e w :
  ydoc (store (netStep e w)) = ydoc (store w)
  /\ storage (store (netStep e w)) = storage (store w)
  /\ tabSync (store (netStep e w)) = tabSync (store w)
  /\ statusListeners (store (netStep e w)) = statusListeners (store w)
  /\ extends (fun e => networkEvent e = true) w (netStep e w).
Proof.
  unfold netStep. destruct (websocketProvider (store w)) as [p|] eqn:Hp;
    [|split_and!; try done; apply extends_refl].
  destruct e as [status| |].
  - unfold onStatus.
    match goal with
    | |- context [notifyAll ?s ?w1] =>
        destruct (notifyAll_frame s w1) as (H1 & H2 & _); rewrite H2
    end.
    assert (Hext : forall w1 w2, trace w1 = trace w -> 
              trace w2 = trace w1 ++ map (fun l => EvNotify l status)
                                       (statusListeners (store w1)) ->
              extends (fun e => networkEvent e = true) w w2).
    { intros w1 w2 Hw1 Hw2. eexists. rewrite Hw2, Hw1. split; [done|].
      apply Forall_forall. intros ev Hin.
      apply list_elem_of_fmap in Hin as (l & -> & _). done. }
    unfold providerFlags in *. rewrite Hp in *.
    repeat case_decide; simpl in *;
      (split_and!; [done | done | done | done |]);
      (eapply Hext; [|exact H1]; done).
  - unfold onConnectionError. simpl.
    case_decide; [|split_and!; try done; apply extends_withStore].
    rewrite Hp.
    match goal with
    | |- context [notifyAll ?s ?w1] =>
        destruct (notifyAll_frame s w1) as (H1 & H2 & _); rewrite H2
    end.
    unfold setShouldConnect, providerDisconnect in *. simpl in *.
    rewrite Hp in *. simpl in *. rewrite ?Hp in *.
    split_and!; try done.
    eexists. rewrite H1. simpl. rewrite <- app_assoc. split; [done|].
    constructor; [done|]. apply Forall_forall. intros ev Hin.
    apply list_elem_of_fmap in Hin as (l & -> & _). done.
  - unfold providerReconnect. rewrite Hp. destruct (shouldConnect p).
    + split_and!; try done. by apply extends_log.
    + split_and!; try done. apply extends_refl.
Qed.

Lemma tabUpdateHandler_posts_only t u o w :
  extends (fun e => exists m, e = EvPost m) w (tabUpdateHandler t u o w).
Proof.
  unfold tabUpdateHandler, broadcastUpdate. case_decide.
  - apply extends_log. by eexists.
  - apply extends_refl.
Qed.

(** *** A store without a storage adapter *)

Lemma observers_fold_storageFree u o hs : forall w,
  ObsPersist ∉ hs ->
  store (foldl (fun acc h => runObserver h u o acc) w hs) = store w
  /\ timers (foldl (fun acc h => runObserver h u o acc) w hs) = timers w
  /\ extends (fun e => storageEvent e = false) w
       (foldl (fun acc h => runObserver h u o acc) w hs).
Proof.
  induction hs as [|h hs IH]; intros w Hn; simpl.
  - split_and!; try done. apply extends_refl.
  - apply not_elem_of_cons in Hn as [Hh Hn].
    destruct h as [|c]; [done|]. simpl.
    destruct (tabSync (store w)) as [t|] eqn:Ht; [|by apply IH].
    destruct (tabUpdateHandler_frame t u o w) as (Hs & Htm & _).
    destruct (IH (tabUpdateHandler t u o w) Hn) as (H1 & H2 & H3).
    rewrite H1, H2, Hs, Htm. split_and!; try done.
    eapply extends_trans; [|exact H3].
    apply (extends_weaken (fun e => exists m, e = EvPost m));
      [by intros e [m ->] | apply tabUpdateHandler_posts_only].
Qed.

Lemma transact_storageFree u o w :
  storageFree w -> storageFree (transact u o w).
Proof.
  intros (Hs & Hobs & Hp & Ht & HF). unfold storageFree, transact.
  destruct (decide (u ⊆ items (ydoc (store w)))); [done|].
  destruct (observers_fold_storageFree (u ∖ items (ydoc (store w))) o
              (observers (ydoc (store w)))
              (withStore (setYdoc (integrate u (ydoc (store w)))) w) Hobs)
    as (H1 & H2 & H3).
  rewrite H1, H2. split_and!; try done.
  eapply Forall_extends; [|exact H3]. done.
Qed.

Lemma log_storageFree e w :
  storageEvent e = false -> storageFree w -> storageFree (log e w).
Proof.
  intros He (Hs & Hobs & Hp & Ht & HF). unfold storageFree. simpl.
  split_and!; try done. apply Forall_app. split; [done | by constructor].
Qed.

Lemma initFinish_storageFree w : storageFree w -> storageFree (initFinish w).
Proof.
  intros (Hs & Hobs & Hp & Ht & HF).
  destruct (initFinish_frame w) as (H1 & _ & _ & H4 & H5).
  destruct (initFinish_timers w) as [H6 H7].
  unfold storageFree. rewrite H1, H6, H7. split_and!; try done; [by apply H4|].
  eapply Forall_extends; [exact HF|].
  apply (extends_weaken (fun e => e = EvConnect)); [by intros e ->|done].
Qed.

Lemma step_storageFree op w : storageFree w -> storageFree (step op w).
Proof.
  intros HK. pose proof HK as (Hs & Hobs & Hp & Ht & HF).
  destruct op; simpl.
  - unfold initBegin. destruct (initialized (store w)); [done|].
    rewrite Hs. by apply initFinish_storageFree.
  - unfold initResume. destruct state as [u|].
    + apply (initFinish_storageFree (applyUpdate u OriginNone w)).
      unfold applyUpdate. by apply transact_storageFree, log_storageFree.
    + by apply (initFinish_storageFree w).
  - by apply transact_storageFree.
  - unfold tabOnMessage. destruct (tabSync (store w)) as [t|]; [|done].
    destruct (onmessage t && negb (channelClosed t)); [|done].
    case_decide; [|done]. unfold applyUpdate.
    by apply transact_storageFree, log_storageFree.
  - unfold fireTimer. rewrite Ht.
    by rewrite decide_False by apply not_elem_of_nil.
  - unfold persist. by rewrite Hs.
  - unfold disposeBegin, persist. by rewrite Hp, Hs.
  - destruct (disposeTeardown_frame w) as (H1 & H2 & H3).
    unfold storageFree. rewrite H1, H2, H3.
    assert (Hst : storage (store (disposeTeardown w)) = false
                  /\ observers (ydoc (store (disposeTeardown w))) = []).
    { unfold disposeTeardown, tabSyncDispose, providerDisconnect.
      destruct (tabSync (store w)); simpl;
        destruct (websocketProvider (store w)); simpl; rewrite Hs; done. }
    destruct Hst as [-> ->]. split_and!; try done; [apply not_elem_of_nil|].
    apply Forall_app. split; [done|]. unfold teardownEvents. rewrite Hs.
    destruct (tabSync (store w)), (websocketProvider (store w)); simpl;
      repeat constructor.
  - done.
  - destruct (netStep_frame e w) as (H1 & H2 & _ & _ & H5).
    destruct (netStep_timers e w) as [H6 H7].
    unfold storageFree. rewrite H1, H2, H6, H7. split_and!; try done.
    eapply Forall_extends; [exact HF|].
    apply (extends_weaken (fun e => networkEvent e = true)); [|done].
    by intros [].
  - unfold onStatusChange. by case_decide.
  - done.
Qed.

(** A store constructed without a storage adapter never touches one: in
    whatever happens to it there is no load, no save, no debounce timer,
    and no timer is pending. *)
Theorem no_storage_no_persistence self config ops :
  cfgStorage config = false ->
  Forall (fun e => storageEvent e = false)
    (trace (run ops (newStoreAt self config)))
  /\ saves (run ops (newStoreAt self config)) = []
  /\ loads (run ops (newStoreAt self config)) = []
  /\ timers (run ops (newStoreAt self config)) = [].
Proof.
  intros Hcfg.
  assert (HK : storageFree (run ops (newStoreAt self config))).
  { assert (H0 : storageFree (newStoreAt self config)).
    { unfold storageFree, newStoreAt. simpl. rewrite Hcfg. simpl.
      split_and!; try done; try apply not_elem_of_nil; try constructor. }
    revert H0. generalize (newStoreAt self config).
    induction ops as [|op ops IH]; intros w H0; simpl; [done|].
    by apply IH, step_storageFree. }
  destruct HK as (_ & _ & _ & Ht & HF). split_and!; try done.
  - unfold saves. apply omap_none.
    apply (Forall_impl _ _ _ HF). by intros [].
  - unfold loads. apply omap_none.
    apply (Forall_impl _ _ _ HF). by intros [].
Qed.

Lemma no_storage_no_persistence_witness :
  cfgStorage memoryConfig = false
  /\ saves (run [OpInitBegin; OpWrite {[1%nat]}; OpPersist; OpDisposeBegin]
              (newStoreAt 0 memoryConfig))
     = [].
Proof.
  split; [reflexivity|].
  apply (no_storage_no_persistence 0 memoryConfig _ eq_refl).
Defined.
(** *** A store with tab sync switched off *)

Lemma observers_fold_channelFree u o hs : forall w,
  tabSync (store w) = None ->
  tabSync (store (foldl (fun acc h => runObserver h u o acc) w hs)) = None
  /\ extends timerEvent w (foldl (fun acc h => runObserver h u o acc) w hs).
Proof.
  induction hs as [|h hs IH]; intros w Ht; simpl.
  - split; [done | apply extends_refl].
  - destruct h as [|c]; simpl.
    + destruct (handleUpdate_frame w) as [H1 H2].
      apply onlyTimer_fields in H1 as (_ & _ & _ & Htab & _).
      destruct (IH (handleUpdate w)) as [H3 H4]; [by rewrite Htab|].
      split; [done | by apply (extends_trans _ _ _ _ H2)].
    + rewrite Ht. by apply IH.
Qed.

Lemma transact_channelFree u o w :
  channelFree w -> channelFree (transact u o w).
Proof.
  intros [Ht HF]. unfold channelFree, transact.
  destruct (decide (u ⊆ items (ydoc (store w)))); [done|].
  destruct (observers_fold_channelFree (u ∖ items (ydoc (store w))) o
              (observers (ydoc (store w)))
              (withStore (setYdoc (integrate u (ydoc (store w)))) w) Ht)
    as [H1 H2].
  split; [done|]. eapply Forall_extends; [exact HF|].
  apply (extends_same_trace _ _
           (withStore (setYdoc (integrate u (ydoc (store w)))) w)); [done|].
  apply (extends_weaken timerEvent); [by intros [] | done].
Qed.

Lemma log_channelFree e w :
  channelEvent e = false -> channelFree w -> channelFree (log e w).
Proof.
  intros He [Ht HF]. split; [done|]. simpl.
  apply Forall_app. split; [done | by constructor].
Qed.

Lemma persist_channelFree w : channelFree w -> channelFree (persist w).
Proof.
  intros HK. unfold persist. destruct (storage (store w)); [|done].
  by apply log_channelFree.
Qed.

Lemma initFinish_channelFree w : channelFree w -> channelFree (initFinish w).
Proof.
  intros [Ht HF]. destruct (initFinish_frame w) as (_ & _ & H3 & _ & H5).
  split; [by apply H3|]. eapply Forall_extends; [exact HF|].
  apply (extends_weaken (fun e => e = EvConnect)); [by intros e ->|done].
Qed.

Lemma step_channelFree op w : channelFree w -> channelFree (step op w).
Proof.
  intros HK. pose proof HK as [Ht HF]. destruct op; simpl.
  - unfold initBegin. destruct (initialized (store w)); [done|].
    destruct (storage (store w)); [by apply log_channelFree|].
    by apply initFinish_channelFree.
  - unfold initResume. destruct state as [u|].
    + apply (initFinish_channelFree (applyUpdate u OriginNone w)).
      unfold applyUpdate. by apply transact_channelFree, log_channelFree.
    + by apply (initFinish_channelFree w).
  - by apply transact_channelFree.
  - unfold tabOnMessage. by rewrite Ht.
  - unfold fireTimer. case_decide; [|done]. by apply persist_channelFree.
  - by apply persist_channelFree.
  - unfold disposeBegin. apply persist_channelFree.
    destruct (persistTimer (store w)) as [t|]; [|done].
    split; [done|]. simpl. apply Forall_app. split; [done | by constructor].
  - destruct (disposeTeardown_frame w) as (_ & H2 & _).
    assert (Hst : tabSync (store (disposeTeardown w)) = None).
    { unfold disposeTeardown, tabSyncDispose, providerDisconnect.
      rewrite Ht. destruct (websocketProvider (store w)); simpl;
        destruct (storage (store w)); done. }
    split; [done|]. rewrite H2. apply Forall_app. split; [done|].
    unfold teardownEvents. rewrite Ht.
    destruct (websocketProvider (store w)), (storage (store w)); simpl;
      repeat constructor.
  - done.
  - destruct (netStep_frame e w) as (_ & _ & H3 & _ & H5).
    split; [by rewrite H3|]. eapply Forall_extends; [exact HF|].
    apply (extends_weaken (fun e => networkEvent e = true)); [|done].
    by intros [].
  - unfold onStatusChange. by case_decide.
  - done.
Qed.

(** A store constructed with [enableTabSync: false] stays off the
    broadcast channel: whatever happens to it, it posts nothing, and a
    message of the bus changes nothing in it. *)
Theorem no_tab_sync_no_broadcast self config ops :
  cfgEnableTabSync config = Some false ->
  posts (run ops (newStoreAt self config)) = []
  /\ Forall (fun e => channelEvent e = false)
       (trace (run ops (newStoreAt self config)))
  /\ forall m,
       tabOnMessage m (run ops (newStoreAt self config))
       = run ops (newStoreAt self config).
Proof.
  intros Hcfg.
  assert (HK : channelFree (run ops (newStoreAt self config))).
  { assert (H0 : channelFree (newStoreAt self config)).
    { unfold channelFree, newStoreAt. simpl. rewrite Hcfg.
      rewrite decide_False by (intros H; by apply H). split; [done|].
      constructor. }
    revert H0. generalize (newStoreAt self config).
    induction ops as [|op ops IH]; intros w H0; simpl; [done|].
    by apply IH, step_channelFree. }
  destruct HK as [Ht HF]. split_and!; [|done|].
  - unfold posts. apply omap_none. apply (Forall_impl _ _ _ HF). by intros [].
  - intros m. unfold tabOnMessage. by rewrite Ht.
Qed.

Lemma no_tab_sync_no_broadcast_witness :
  cfgEnableTabSync soloConfig = Some false
  /\ posts (run [OpInitBegin; OpInitResume None; OpWrite {[1%nat]}]
              (newStoreAt 0 soloConfig))
     = [].
Proof.
  split; [reflexivity|].
  apply (no_tab_sync_no_broadcast 0 soloConfig _ eq_refl).
Defined.

(** *** After [dispose()] *)

Lemma dispose_torndown w : timersTracked w -> torndown (dispose w).
Proof.
  intros Htr. unfold torndown, dispose, disposeEnd. simpl.
  destruct (disposeTeardown_frame (disposeBegin w)) as (H1 & _ & _).
  rewrite H1. split_and!.
  - unfold disposeTeardown, tabSyncDispose, providerDisconnect.
    destruct (tabSync (store (disposeBegin w))); simpl;
      destruct (websocketProvider (store (disposeBegin w))); simpl;
      destruct (storage (store (disposeBegin w))); done.
  - unfold disposeBegin.
    match goal with
    | |- timers (persist ?w1) = _ =>
        destruct (persist_frame w1) as [_ H2]; rewrite H2
    end.
    destruct (persistTimer (store w)) as [t|] eqn:Hp; simpl.
    + apply (tracked_filter _ _ Htr Hp).
    + apply (tracked_none _ Htr Hp).
  - unfold disposeTeardown, tabSyncDispose, providerDisconnect.
    destruct (tabSync (store (disposeBegin w))) eqn:Htab; simpl;
      destruct (websocketProvider (store (disposeBegin w))) eqn:Hprov; simpl;
      rewrite ?Hprov; simpl;
      destruct (storage (store (disposeBegin w))); simpl; rewrite ?Htab;
      done.
Qed.

Lemma step_torndown op w :
  lateOp op = true -> torndown w ->
  torndown (step op w) /\ trace (step op w) = trace w.
Proof.
  intros Hop (Hobs & Ht & Hch). destruct op; try discriminate Hop; simpl.
  - unfold localWrite, transact, torndown. rewrite Hobs.
    destruct (decide (update ⊆ items (ydoc (store w)))); simpl;
      split_and!; done.
  - unfold tabOnMessage. destruct (tabSync (store w)) as [t|] eqn:Htab.
    + rewrite Hch, andb_false_r. split; [|done].
      unfold torndown. by rewrite Htab.
    + split; [|done]. unfold torndown. by rewrite Htab.
  - unfold fireTimer. rewrite Ht.
    rewrite decide_False by apply not_elem_of_nil. by split.
Qed.

(** [dispose()] is final: once a store whose timers are tracked is
    disposed, a later write through a handle the consumer kept, a message of
    the bus or a timer has no effect on the collaborators: nothing is saved,
    posted or scheduled. *)
Theorem dispose_is_final w ops :
  timersTracked w ->
  Forall (fun op => lateOp op = true) ops ->
  trace (run ops (dispose w)) = trace (dispose w)
  /\ timers (run ops (dispose w)) = []
  /\ observers (ydoc (store (run ops (dispose w)))) = []
  /\ initialized (store (dispose w)) = false.
Proof.
  intros Htr Hops. pose proof (dispose_torndown w Htr) as Hd.
  assert (H : torndown (run ops (dispose w))
              /\ trace (run ops (dispose w)) = trace (dispose w)).
  { revert Hd. generalize (dispose w).
    induction Hops as [|op ops Hop _ IH]; intros w0 Hd; simpl; [done|].
    destruct (step_torndown op w0 Hop Hd) as [H1 H2].
    destruct (IH _ H1) as [H3 H4]. split; [done|]. by rewrite H4. }
  destruct H as [(H1 & H2 & _) H3]. done.
Qed.

Lemma dispose_is_final_witness :
  Forall (fun op => lateOp op = true)
    [OpWrite {[2%nat]}; OpTimer 0;
     OpTabMessage {| msgType := "update"; msgStoreId := "my-app";
                     msgUpdate := {[3%nat]} |}]
  /\ trace (run [OpWrite {[2%nat]}; OpTimer 0;
                 OpTabMessage {| msgType := "update"; msgStoreId := "my-app";
                                 msgUpdate := {[3%nat]} |}]
              (dispose (localWrite {[1%nat]}
                          (init None (newStore fullConfig)))))
     = trace (dispose (localWrite {[1%nat]} (init None (newStore fullConfig)))).
Proof.
  assert (H1 : Forall (fun op => lateOp op = true)
                 [OpWrite {[2%nat]}; OpTimer 0;
                  OpTabMessage {| msgType := "update";
                                  msgStoreId := "my-app";
                                  msgUpdate := {[3%nat]} |}])
    by (repeat constructor).
  split; [exact H1|].
  apply dispose_is_final; [|exact H1].
  apply oneTimer_tracked. exists 0%nat. split; reflexivity.
Defined.
(** *** The set of status listeners *)

Lemma disposeTeardown_listeners w :
  statusListeners (store (disposeTeardown w)) = statusListeners (store w).
Proof.
  unfold disposeTeardown, tabSyncDispose, providerDisconnect.
  destruct (tabSync (store w)) eqn:Htab; simpl;
    destruct (websocketProvider (store w)) eqn:Hprov; simpl;
    rewrite ?Hprov; simpl; destruct (storage (store w)); done.
Qed.

Lemma step_listeners op w :
  statusListeners (store (step op w))
  = match op with
    | OpOnStatusChange l =>
        if decide (l ∈ statusListeners (store w))
        then statusListeners (store w)
        else statusListeners (store w) ++ [l]
    | OpOffStatusChange l =>
        filter (fun l' => l' <> l) (statusListeners (store w))
    | _ => statusListeners (store w)
    end.
Proof.
  destruct op as [|state|update|m|id| | | | |e|l|l]; unfold step.
  - unfold initBegin. destruct (initialized (store w)); [done|].
    destruct (storage (store w)); [done|].
    by destruct (initFinish_frame w) as (_ & H & _).
  - unfold initResume. destruct state as [u|].
    + destruct (initFinish_frame (applyUpdate u OriginNone w))
        as (_ & H & _).
      etrans; [exact H|]. unfold applyUpdate.
      by destruct (transact_fields u OriginNone (log (EvApply u OriginNone) w))
        as (_ & _ & _ & _ & _ & _ & H' & _).
    + by destruct (initFinish_frame w) as (_ & H & _).
  - by destruct (transact_fields update OriginNone w)
      as (_ & _ & _ & _ & _ & _ & H' & _).
  - unfold tabOnMessage. destruct (tabSync (store w)) as [t|]; [|done].
    destruct (onmessage t && negb (channelClosed t)); [|done].
    case_decide; [|done]. unfold applyUpdate.
    by destruct (transact_fields (msgUpdate m)
                   (OriginTabSync (tsSelf t))
                   (log (EvApply (msgUpdate m)
                           (OriginTabSync (tsSelf t))) w))
      as (_ & _ & _ & _ & _ & _ & H' & _).
  - unfold fireTimer. case_decide; [|done].
    match goal with
    | |- context [persist ?w1] => by destruct (persist_frame w1) as [H' _]; rewrite H'
    end.
  - by destruct (persist_frame w) as [H' _]; rewrite H'.
  - unfold disposeBegin.
    match goal with
    | |- context [persist ?w1] => destruct (persist_frame w1) as [-> _]
    end.
    by destruct (persistTimer (store w)).
  - apply disposeTeardown_listeners.
  - done.
  - by destruct (netStep_frame e w) as (_ & _ & _ & H' & _).
  - unfold onStatusChange. by case_decide.
  - done.
Qed.

Lemma filter_ne_idemp (l : nat) (ls : list nat) :
  filter (fun l' => l' <> l) (filter (fun l' => l' <> l) ls)
  = filter (fun l' => l' <> l) ls.
Proof.
  induction ls as [|x xs IH]; [done|].
  rewrite filter_cons. case_decide as Hx; [|done].
  rewrite filter_cons, decide_True by done. by rewrite IH.
Qed.

Lemma step_listeners_NoDup op w :
  NoDup (statusListeners (store w)) ->
  NoDup (statusListeners (store (step op w))).
Proof.
  intros Hnd. rewrite step_listeners. destruct op; try done.
  - case_decide; [done|]. apply NoDup_app. split_and!; [done| |].
    + intros x Hx Hin. apply list_elem_of_singleton in Hin. by subst.
    + apply NoDup_singleton.
  - by apply NoDup_filter.
Qed.

(** The status listeners are a set, whatever happened to the store before:
    no listener is registered twice, registering one again changes nothing,
    a registered listener is told of a status event exactly once, in the
    order of registration, and a removed listener is no longer told;
    removing is idempotent. *)
Theorem status_listeners_are_a_set self config ops (l : nat)
    (status : string) :
  NoDup (statusListeners (store (run ops (newStoreAt self config))))
  /\ onStatusChange l (onStatusChange l (run ops (newStoreAt self config)))
     = onStatusChange l (run ops (newStoreAt self config))
  /\ (l ∈ statusListeners
            (store (onStatusChange l (run ops (newStoreAt self config)))))
  /\ NoDup (statusListeners
              (store (onStatusChange l (run ops (newStoreAt self config)))))
  /\ trace (notifyAll status
              (onStatusChange l (run ops (newStoreAt self config))))
     = trace (run ops (newStoreAt self config))
       ++ map (fun l' => EvNotify l' status)
            (statusListeners
               (store (onStatusChange l (run ops (newStoreAt self config)))))
  /\ (l ∉ statusListeners
            (store (offStatusChange l (run ops (newStoreAt self config)))))
  /\ trace (notifyAll status
              (offStatusChange l (run ops (newStoreAt self config))))
     = trace (run ops (newStoreAt self config))
       ++ map (fun l' => EvNotify l' status)
            (filter (fun l' => l' <> l)
               (statusListeners (store (run ops (newStoreAt self config)))))
  /\ offStatusChange l (offStatusChange l (run ops (newStoreAt self config)))
     = offStatusChange l (run ops (newStoreAt self config)).
Proof.
  assert (Hnd : NoDup (statusListeners
                         (store (run ops (newStoreAt self config))))).
  { assert (H0 : NoDup (statusListeners (store (newStoreAt self config))))
      by apply NoDup_nil_2.
    revert H0. generalize (newStoreAt self config).
    induction ops as [|op ops IH]; intros w H0; simpl; [done|].
    by apply IH, step_listeners_NoDup. }
  set (w := run ops (newStoreAt self config)) in *.
  assert (Hon : l ∈ statusListeners (store (onStatusChange l w))).
  { unfold onStatusChange. case_decide; [done|]. simpl.
    apply elem_of_app. right. apply list_elem_of_here. }
  split_and!.
  - done.
  - unfold onStatusChange at 1. by rewrite decide_True.
  - done.
  - apply (step_listeners_NoDup (OpOnStatusChange l) w Hnd).
  - destruct (notifyAll_frame status (onStatusChange l w)) as (-> & _).
    f_equal. unfold onStatusChange. by case_decide.
  - simpl. intros Hin. apply list_elem_of_filter in Hin as [Hne _].
    by apply Hne.
  - by destruct (notifyAll_frame status (offStatusChange l w)) as (-> & _).
  - unfold offStatusChange, withStore. simpl. f_equal.
    by rewrite filter_ne_idemp.
Qed.
(** *** Stores on the broadcast bus *)

Lemma channelName_inj t1 t2 :
  channelName t1 = channelName t2 -> tsStoreId t1 = tsStoreId t2.
Proof. unfold channelName. intros H. by injection H. Qed.

Lemma pump_deaf j wj fuel : forall queue nodes,
  Forall (fun p => sender p = j \/ listensTo (channel p) wj = false) queue ->
  nodes !! j = Some wj ->
  (pump fuel queue nodes).2 !! j = Some wj.
Proof.
  induction fuel as [|fuel IH]; intros queue nodes Hq Hj; simpl; [done|].
  destruct queue as [|p queue]; simpl; [done|].
  apply Forall_cons in Hq as [Hp Hq].
  rewrite deliver_silent, app_nil_r. apply IH; [done|].
  unfold deliver. rewrite list_lookup_imap, Hj. simpl.
  destruct Hp as [Hp|Hp].
  - rewrite Hp. by rewrite bool_decide_eq_false_2 by (intros H; by apply H).
  - by rewrite Hp, andb_false_r.
Qed.

Lemma localWrite_tabSync u w :
  tabSync (store (localWrite u w)) = tabSync (store w).
Proof.
  by destruct (transact_fields u OriginNone w) as (_ & _ & _ & H & _).
Qed.

Lemma postedBy_channel i w w' t :
  tabSync (store w') = Some t ->
  Forall (fun p => sender p = i /\ channel p = channelName t)
    (postedBy i w w').
Proof.
  intros Ht. unfold postedBy. rewrite Ht.
  apply Forall_fmap, Forall_forall. by intros m _.
Qed.

(** Stores of different [storeId]s on one device do not see each other's
    writes: a write at one store, with all the deliveries that follow,
    leaves a store of another [storeId] (or without tab sync) as it was; and
    a message that carries another [storeId], or is not an update, is
    ignored by [onmessage] even if it arrives. *)
Theorem different_stores_are_isolated :
  (forall fuel i j u nodes w wj,
     i <> j ->
     nodes !! i = Some w -> nodes !! j = Some wj ->
     (forall t tj,
        tabSync (store w) = Some t -> tabSync (store wj) = Some tj ->
        tsStoreId tj <> tsStoreId t) ->
     (writeAt fuel i u nodes).2 !! j = Some wj)
  /\ (forall m w t,
        tabSync (store w) = Some t ->
        msgStoreId m <> tsStoreId t \/ msgType m <> "update" ->
        tabOnMessage m w = w).
Proof.
  split.
  - intros fuel i j u nodes w wj Hij Hi Hj Hids. unfold writeAt. rewrite Hi.
    apply pump_deaf; [|by rewrite list_lookup_insert_ne].
    destruct (tabSync (store (localWrite u w))) as [t|] eqn:Ht.
    + apply (Forall_impl _ _ _ (postedBy_channel i w _ t Ht)).
      intros p [_ Hc]. right. rewrite Hc. unfold listensTo.
      destruct (tabSync (store wj)) as [tj|] eqn:Htj; [|done].
      apply bool_decide_eq_false_2. intros Hname.
      apply channelName_inj in Hname.
      rewrite localWrite_tabSync in Ht. by apply (Hids t tj).
    + unfold postedBy. rewrite Ht. constructor.
  - intros m w t Ht Hne. unfold tabOnMessage. rewrite Ht.
    destruct (onmessage t && negb (channelClosed t)); [|done].
    rewrite decide_False; [done|]. intros [H1 H2]. by destruct Hne.
Qed.

Lemma different_stores_are_isolated_witness :
  [init None (newStoreAt 0 localConfig); init None (newStoreAt 1 soloConfig);
   init None (newStoreAt 2 memoryConfig)] !! 2%nat
  = Some (init None (newStoreAt 2 memoryConfig))
  /\ (writeAt 5 0 {[1%nat]}
        [init None (newStoreAt 0 localConfig);
         init None (newStoreAt 1 soloConfig);
         init None (newStoreAt 2 memoryConfig)]).2 !! 2%nat
     = Some (init None (newStoreAt 2 memoryConfig)).
Proof.
  split; [reflexivity|].
  destruct different_stores_are_isolated as [Hiso _].
  apply (Hiso 5%nat 0%nat 2%nat {[1%nat]} _
           (init None (newStoreAt 0 localConfig))
           (init None (newStoreAt 2 memoryConfig)));
    [done | reflexivity | reflexivity |].
  intros t tj Ht Htj. vm_compute in Ht, Htj.
  injection Ht as <-. injection Htj as <-. simpl. discriminate.
Defined.

(** What a write posts: one message for each update handler of tab sync,
    carrying what the write brought. *)
Lemma observers_fold_posts u o t hs : forall w,
  tabSync (store w) = Some t ->
  o <> OriginTabSync (tsSelf t) ->
  posts (foldl (fun acc h => runObserver h u o acc) w hs)
  = posts w
    ++ replicate (length (filter (fun h => h <> ObsPersist) hs))
         {| msgType := "update"; msgStoreId := tsStoreId t; msgUpdate := u |}.
Proof.
  induction hs as [|h hs IH]; intros w Ht Ho.
  - simpl. by rewrite app_nil_r.
  - cbn [foldl]. destruct (runObserver_frame h u o w) as [H1 _].
    apply onlyTimer_fields in H1 as (_ & _ & _ & Htab & _).
    rewrite IH by (by rewrite ?Htab). destruct h as [|c].
    + rewrite filter_cons_False by (intros H; by apply H).
      f_equal. apply extends_posts.
      apply (extends_weaken timerEvent); [by intros []|].
      apply handleUpdate_frame.
    + rewrite filter_cons_True by done. simpl. rewrite Ht.
      unfold tabUpdateHandler, broadcastUpdate. rewrite decide_True by done.
      unfold posts. simpl. by rewrite omap_app, <- app_assoc.
Qed.

Lemma localWrite_posts u w t :
  tabSync (store w) = Some t ->
  ~ u ⊆ items (ydoc (store w)) ->
  posts (localWrite u w)
  = posts w
    ++ replicate (tabHandlers w)
         {| msgType := "update"; msgStoreId := tsStoreId t;
            msgUpdate := u ∖ items (ydoc (store w)) |}.
Proof.
  intros Ht Hu. unfold localWrite, transact.
  rewrite decide_False by done.
  by rewrite (observers_fold_posts _ _ t).
Qed.

Lemma tabOnMessage_accept m w t :
  tabSync (store w) = Some t ->
  onmessage t = true -> channelClosed t = false ->
  msgType m = "update" -> msgStoreId m = tsStoreId t ->
  tabSync (store (tabOnMessage m w)) = Some t
  /\ items (ydoc (store (tabOnMessage m w)))
     = items (ydoc (store w)) ∪ msgUpdate m.
Proof.
  intros Ht Hon Hcl Hty Hid. unfold tabOnMessage.
  rewrite Ht, Hon, Hcl. simpl. rewrite decide_True by done.
  unfold applyUpdate.
  destruct (transact_fields (msgUpdate m) (OriginTabSync (tsSelf t))
              (log (EvApply (msgUpdate m) (OriginTabSync (tsSelf t))) w))
    as (H1 & _ & _ & H2 & _).
  rewrite H1, H2. done.
Qed.

Lemma pump_delivers i j (p : Posted) tj fuel : forall queue nodes wj,
  i <> j -> sender p = i -> channel p = channelName tj ->
  msgType (message p) = "update" -> msgStoreId (message p) = tsStoreId tj ->
  onmessage tj = true -> channelClosed tj = false ->
  Forall (fun q => q = p) queue ->
  nodes !! j = Some wj -> tabSync (store wj) = Some tj ->
  exists wj',
    (pump fuel queue nodes).2 !! j = Some wj'
    /\ tabSync (store wj') = Some tj
    /\ items (ydoc (store wj)) ⊆ items (ydoc (store wj'))
    /\ ((1 <= fuel)%nat -> queue <> [] ->
        msgUpdate (message p) ⊆ items (ydoc (store wj'))).
Proof.
  induction fuel as [|fuel IH];
    intros queue nodes wj Hij Hs Hc Hty Hid Hon Hcl Hq Hj Ht; simpl.
  - exists wj. split_and!; try done. lia.
  - destruct queue as [|q queue]; simpl.
    { exists wj. split_and!; done. }
    apply Forall_cons in Hq as [-> Hq].
    rewrite deliver_silent, app_nil_r.
    assert (Hd : deliver p nodes !! j = Some (tabOnMessage (message p) wj)).
    { unfold deliver. rewrite list_lookup_imap, Hj. simpl.
      rewrite bool_decide_eq_true_2 by (rewrite Hs; by intros ->).
      unfold listensTo. rewrite Ht, Hc.
      by rewrite bool_decide_eq_true_2. }
    destruct (tabOnMessage_accept (message p) wj tj Ht Hon Hcl Hty Hid)
      as [Ht' Hit].
    destruct (IH queue (deliver p nodes) _ Hij Hs Hc Hty Hid Hon Hcl Hq Hd Ht')
      as (wj' & H1 & H2 & H3 & _).
    exists wj'. rewrite Hit in H3. split_and!; try done.
    + intros x Hx. apply H3. apply elem_of_union. by left.
    + intros _ _ x Hx. apply H3. apply elem_of_union. by right.
Qed.

(** Tab sync delivers: a write that changes the document of a store whose
    tab sync is initialised reaches, after the first delivery, every other
    store of the same [storeId] that listens; that store keeps what it had
    and, if it already had what the writer had, has all of the writer's
    state. *)
Theorem tab_sync_delivers fuel i j (u : Update) nodes w wj t tj :
  i <> j ->
  nodes !! i = Some w -> nodes !! j = Some wj ->
  tabSync (store w) = Some t ->
  (1 <= tabHandlers w)%nat ->
  ~ u ⊆ items (ydoc (store w)) ->
  tabSync (store wj) = Some tj ->
  tsStoreId tj = tsStoreId t ->
  onmessage tj = true -> channelClosed tj = false ->
  (1 <= fuel)%nat ->
  exists wj',
    (writeAt fuel i u nodes).2 !! j = Some wj'
    /\ u ∖ items (ydoc (store w)) ⊆ items (ydoc (store wj'))
    /\ items (ydoc (store wj)) ⊆ items (ydoc (store wj'))
    /\ (items (ydoc (store w)) ⊆ items (ydoc (store wj)) ->
        items (ydoc (store (localWrite u w))) ⊆ items (ydoc (store wj'))).
Proof.
  intros Hij Hi Hj Ht Hn Hu Htj Hid Hon Hcl Hfuel.
  unfold writeAt. rewrite Hi.
  set (m := {| msgType := "update"; msgStoreId := tsStoreId t;
               msgUpdate := u ∖ items (ydoc (store w)) |}).
  set (p := {| sender := i; channel := channelName t; message := m |}).
  assert (Hq : postedBy i w (localWrite u w)
               = replicate (tabHandlers w) p).
  { unfold postedBy. rewrite localWrite_tabSync, Ht.
    rewrite (localWrite_posts u w t Ht Hu), drop_app_length.
    by rewrite fmap_replicate. }
  rewrite Hq.
  assert (Hname : channelName t = channelName tj)
    by (unfold channelName; by rewrite Hid).
  destruct (pump_delivers i j p tj fuel (replicate (tabHandlers w) p)
              (<[i:=localWrite u w]> nodes) wj)
    as (wj' & H1 & _ & H3 & H4); try done.
  - apply Forall_replicate. done.
  - by rewrite list_lookup_insert_ne.
  - exists wj'. split_and!; try done.
    + apply H4; [done|]. destruct (tabHandlers w); [lia | done].
    + intros Hsub. unfold localWrite. rewrite transact_items.
      assert (Hm : u ∖ items (ydoc (store w)) ⊆ items (ydoc (store wj'))).
      { apply H4; [done|]. destruct (tabHandlers w); [lia | done]. }
      intros x Hx. apply elem_of_union in Hx as [Hx|Hx].
      * apply H3, Hsub, Hx.
      * destruct (decide (x ∈ items (ydoc (store w)))) as [Hin|Hnin].
        -- apply H3, Hsub, Hin.
        -- apply Hm. by apply elem_of_difference.
Qed.

Lemma tab_sync_delivers_witness :
  threeTabs !! 0%nat = Some (init None (newStoreAt 0 localConfig))
  /\ exists wj',
       (writeAt 1 0 {[1%nat]} threeTabs).2 !! 2%nat = Some wj'
       /\ ({[1%nat]} : Update) ∖ ∅ ⊆ items (ydoc (store wj')).
Proof.
  split; [reflexivity|].
  destruct (tab_sync_delivers 1 0 2 {[1%nat]} threeTabs
              (init None (newStoreAt 0 localConfig))
              (init None (newStoreAt 2 localConfig))
              {| tsSelf := 0; tsStoreId := "my-app";
                 updateHandler := Some 0%nat; onmessage := true;
                 channelClosed := false |}
              {| tsSelf := 2; tsStoreId := "my-app";
                 updateHandler := Some 0%nat; onmessage := true;
                 channelClosed := false |})
    as (wj' & H1 & H2 & _); try reflexivity; try done.
  - change (items (ydoc (store (init None (newStoreAt 0 localConfig)))))
      with (∅ : gset nat).
    intros Hsub. apply (not_elem_of_empty (C := gset nat) 1%nat).
    apply Hsub. by apply elem_of_singleton.
  - exists wj'. split; [exact H1 | exact H2].
Defined.
(** *** [dispose()] while [init()] awaits the load *)

(** A store with storage and a WebSocket URL that is disposed while
    [init()] awaits [storage.load], as when its provider component unmounts
    at once: when the load settles, [init()] runs on: it calls [connect()]
    on the provider that was destroyed, registers an update handler of tab
    sync on the closed channel's store, and marks the store initialised. *)
Theorem init_outlives_dispose self config (state : option Update)
    (url : string) :
  cfgStorage config = true ->
  cfgWebsocketUrl config = Some url ->
  (initBegin (newStoreAt self config)).1 = InitAwaitingLoad
  /\ initialized
       (store (initResume state
                 (dispose (initBegin (newStoreAt self config)).2))) = true
  /\ last (trace (initResume state
                    (dispose (initBegin (newStoreAt self config)).2)))
     = Some EvConnect
  /\ EvProviderDestroy
     ∈ trace (initResume state
                (dispose (initBegin (newStoreAt self config)).2))
  /\ (exists p,
        websocketProvider
          (store (initResume state
                    (dispose (initBegin (newStoreAt self config)).2)))
        = Some p
        /\ shouldConnect p = true)
  /\ (cfgEnableTabSync config <> Some false ->
      tabHandlers (initResume state
                     (dispose (initBegin (newStoreAt self config)).2))
      = 1%nat).
Proof.
  intros Hst Hurl. destruct config as [id st ets pd wurl opts].
  simpl in Hst, Hurl. subst st wurl.
  unfold initResume, applyUpdate, transact.
  destruct state as [u|]; [destruct (decide (u ⊆ _))|];
    destruct ets as [[|]|];
    (split_and!;
     [ reflexivity | reflexivity | reflexivity
     | match goal with
       | |- ?x ∈ trace ?w =>
           let t := eval lazy in (trace w) in change (x ∈ t)
       end;
       repeat (first [apply list_elem_of_here | apply list_elem_of_further])
     | eexists; split; reflexivity
     | first [ intros _; reflexivity | intros H; by destruct H ] ]).
Qed.

Lemma init_outlives_dispose_witness :
  cfgStorage fullConfig = true
  /\ last (trace (initResume None
                    (dispose (initBegin (newStoreAt 0 fullConfig)).2)))
     = Some EvConnect.
Proof.
  split; [reflexivity|].
  apply (init_outlives_dispose 0 fullConfig None "ws://localhost:1234"
           eq_refl eq_refl).
Defined.
(** A store with storage that is disposed while [init()] awaits the load,
    where the load settles before the final save of [dispose()]: the save
    was issued first and carries the empty document; [init()] then applies
    the loaded state, and the teardown that follows removes every handler
    and switches auto-reconnect off. The persist timer that the loaded state
    started, if it was not empty, is still pending when [dispose()]
    returns. *)
Theorem dispose_overtaken_by_load self config (state : option Update) :
  cfgStorage config = true ->
  let w := disposeEnd
             (disposeTeardown
                (initResume state
                   (disposeBegin (initBegin (newStoreAt self config)).2))) in
  take 2 (trace w)
  = [EvLoad (cfgStoreId config); EvSave (cfgStoreId config) ∅]
  /\ initialized (store w) = false
  /\ observers (ydoc (store w)) = []
  /\ (forall p, websocketProvider (store w) = Some p ->
                shouldConnect p = false)
  /\ timers w = match state with
                | Some u => if decide (u ⊆ ∅) then [] else [0%nat]
                | None => []
                end.
Proof.
  intros Hst. destruct config as [id st ets pd wurl opts].
  simpl in Hst. subst st.
  unfold initResume, applyUpdate, transact.
  destruct state as [u|];
    [destruct (decide (u ⊆ ∅)) as [Hu|Hu];
     (destruct (decide (u ⊆ _)) as [Hu'|Hu'];
      [try (exfalso; apply Hu; exact Hu')
      |try (exfalso; apply Hu'; exact Hu)])|];
    destruct ets as [[|]|]; destruct wurl as [url|];
    (split_and!;
     [ reflexivity | reflexivity | reflexivity
     | match goal with
       | |- forall p, ?a = Some p -> _ =>
           let t := eval lazy in a in
           change (forall p, t = Some p -> shouldConnect p = false)
       end;
       first [ by intros p [= <-] | by intros p [=] ]
     | reflexivity ]).
Qed.

Lemma dispose_overtaken_by_load_witness :
  cfgStorage fullConfig = true
  /\ timers (disposeEnd
               (disposeTeardown
                  (initResume (Some {[ 7%nat ]})
                     (disposeBegin (initBegin (newStoreAt 0 fullConfig)).2))))
     = [0%nat].
Proof.
  split; [reflexivity|].
  destruct (dispose_overtaken_by_load 0 fullConfig (Some {[ 7%nat ]}) eq_refl)
    as (_ & _ & _ & _ & H).
  exact H.
Defined.
End OrbitExtra.

(** ** More properties of the minimal text diff *)

Module TextDiffExtra.
Import TextDiff TextDiffSpec.

Section minimal.
Context {A : Type} `{EqDecision A}.
Implicit Types oldText newText t : list A.

Lemma replace_shape oldText t (q d : nat) :
  (q + d <= length oldText)%nat ->
  ytextInsert (Z.of_nat q) t (ytextDelete (Z.of_nat q) (Z.of_nat d) oldText)
  = take q oldText ++ t ++ drop (q + d) oldText.
Proof.
  intros Hq. unfold ytextInsert, ytextDelete. rewrite Nat2Z.id.
  replace (Z.to_nat (Z.of_nat q + Z.of_nat d)) with (q + d)%nat by lia.
  assert (Hlen : length (take q oldText) = q) by (rewrite length_take; lia).
  by rewrite take_app_length', drop_app_length'.
Qed.

(** Any replacement of one region that turns [oldText] into [newText]
    removes at least as much as the region between the common prefix and the
    common suffix found by the two loops. *)
Lemma replace_bound oldText newText t (q d r k : nat) :
  (q + d <= length oldText)%nat ->
  newText = take q oldText ++ t ++ drop (q + d) oldText ->
  (r <= length oldText)%nat -> (r <= length newText)%nat ->
  (k <= length oldText - r)%nat -> (k <= length newText - r)%nat ->
  prefixCond oldText newText (Z.of_nat r) = false ->
  suffixCond oldText newText (Z.of_nat r) (Z.of_nat k) = false ->
  (length oldText - d <= r + k)%nat.
Proof.
  intros Hq Hnew Hro Hrn Hko Hkn Hcp Hcs.
  assert (Hln : length newText = (q + length t + (length oldText - q - d))%nat).
  { rewrite Hnew, !length_app, length_take, length_drop. lia. }
  assert (Hqr : (q <= r)%nat).
  { destruct (decide (q <= r)%nat) as [|Hlt]; [done|]. exfalso.
    apply (prefixCond_false _ _ _ Hcp); [lia | lia |].
    rewrite Hnew, lookup_app_l by (rewrite length_take; lia).
    by rewrite lookup_take_lt by lia. }
  destruct (decide (length oldText - d <= r + k)%nat) as [|Hlt]; [done|].
  exfalso. apply (suffixCond_false _ _ _ _ Hcs); [lia | lia |].
  rewrite Hln, Hnew.
  rewrite lookup_app_r by (rewrite length_take; lia).
  rewrite lookup_app_r by (rewrite length_take; lia).
  rewrite lookup_drop, length_take. f_equal. lia.
Qed.

(** The diff is minimal: whatever single delete-then-insert pair at one
    position turns [oldText] into [newText], it deletes at least as many
    code units and inserts at least as many as the pair [setOrbitText]
    computes. *)
Theorem setOrbitText_is_minimal oldText newText (q d : Z) t :
  0 <= q -> 0 <= d -> q + d <= len oldText ->
  applyOps [OpDelete q d; OpInsert q t] oldText = newText ->
  len oldText - commonPrefixOf oldText newText
    - commonSuffixOf oldText newText (commonPrefixOf oldText newText) <= d
  /\ len (slice newText (commonPrefixOf oldText newText)
            (len newText
             - commonSuffixOf oldText newText (commonPrefixOf oldText newText)))
     <= len t.
Proof.
  intros Hq Hd Hqd Happ.
  destruct (commonPrefixOf_spec oldText newText)
    as (r & -> & Ho & Hn & _ & Hcp).
  destruct (commonSuffixOf_spec oldText newText r Ho Hn)
    as (k & -> & Hko & Hkn & _ & Hcs).
  rewrite len_slice_middle by lia.
  simpl in Happ. unfold len in *.
  replace q with (Z.of_nat (Z.to_nat q)) in Happ by lia.
  replace d with (Z.of_nat (Z.to_nat d)) in Happ by lia.
  rewrite replace_shape in Happ by lia. symmetry in Happ.
  pose proof (replace_bound oldText newText t (Z.to_nat q) (Z.to_nat d) r k
                ltac:(lia) Happ Ho Hn Hko Hkn Hcp Hcs) as Hb.
  assert (Hln : length newText
                = (Z.to_nat q + length t
                   + (length oldText - Z.to_nat q - Z.to_nat d))%nat).
  { rewrite Happ at 1. rewrite !length_app, length_take, length_drop. lia. }
  lia.
Qed.

(** One keystroke is one operation: when [newText] is [oldText] with one
    code unit inserted, the transaction is a single insert of one code
    unit; when it is [oldText] with one code unit removed, the transaction
    is a single delete of one code unit. *)
Theorem keystroke_is_one_operation (a b : list A) (c : A) :
  (exists p x, setOrbitText (a ++ b) (a ++ c :: b) = Some [OpInsert p [x]])
  /\ (exists p, setOrbitText (a ++ c :: b) (a ++ b) = Some [OpDelete p 1]).
Proof.
  split.
  - assert (Hne : a ++ b <> a ++ c :: b).
    { intros Heq. apply (f_equal length) in Heq.
      rewrite !length_app in Heq. simpl in Heq. lia. }
    unfold setOrbitText. rewrite decide_False by done.
    destruct (commonPrefixOf_spec (a ++ b) (a ++ c :: b))
      as (r & -> & Ho & Hn & _ & Hcp).
    destruct (commonSuffixOf_spec (a ++ b) (a ++ c :: b) r Ho Hn)
      as (k & -> & Hko & Hkn & _ & Hcs).
    pose proof (replace_bound (a ++ b) (a ++ c :: b) [c] (length a) 0 r k) as Hb.
    rewrite !length_app in *. simpl in *.
    specialize (Hb ltac:(lia)).
    rewrite take_app_length, Nat.add_0_r, drop_app_length in Hb.
    specialize (Hb eq_refl ltac:(lia) ltac:(lia) ltac:(lia) ltac:(lia) Hcp Hcs).
    pose proof (len_slice_middle (a ++ c :: b) r k) as Hlen.
    unfold transactionOps, len in *. rewrite !length_app in *. simpl in *.
    specialize (Hlen ltac:(lia)).
    rewrite decide_False by lia. rewrite decide_True by lia. simpl.
    destruct (slice (a ++ c :: b) (Z.of_nat r)
                (Z.of_nat (length a + S (length b)) - Z.of_nat k))
      as [|x [|y l]] eqn:Hs; simpl in Hlen; try lia.
    by exists (Z.of_nat r), x.
  - assert (Hne : a ++ c :: b <> a ++ b).
    { intros Heq. apply (f_equal length) in Heq.
      rewrite !length_app in Heq. simpl in Heq. lia. }
    unfold setOrbitText. rewrite decide_False by done.
    destruct (commonPrefixOf_spec (a ++ c :: b) (a ++ b))
      as (r & -> & Ho & Hn & _ & Hcp).
    destruct (commonSuffixOf_spec (a ++ c :: b) (a ++ b) r Ho Hn)
      as (k & -> & Hko & Hkn & _ & Hcs).
    pose proof (replace_bound (a ++ c :: b) (a ++ b) [] (length a) 1 r k) as Hb.
    rewrite !length_app in *. simpl in *.
    specialize (Hb ltac:(lia)).
    replace (length a + 1)%nat with (length (a ++ [c])) in Hb
      by (rewrite length_app; simpl; lia).
    rewrite take_app_length in Hb.
    replace (a ++ c :: b) with ((a ++ [c]) ++ b) in Hb at 1
      by (by rewrite <- app_assoc).
    rewrite drop_app_length in Hb.
    specialize (Hb eq_refl ltac:(lia) ltac:(lia) ltac:(lia) ltac:(lia) Hcp Hcs).
    unfold transactionOps, len. rewrite !length_app. simpl.
    rewrite decide_True by lia. rewrite decide_False by lia. simpl.
    exists (Z.of_nat r). do 3 f_equal. lia.
Qed.
End minimal.

Lemma setOrbitText_is_minimal_witness :
  1 + 2 <= len (str "abcd")
  /\ len (str "abcd") - commonPrefixOf (str "abcd") (str "abXd")
       - commonSuffixOf (str "abcd") (str "abXd")
           (commonPrefixOf (str "abcd") (str "abXd"))
     <= 2.
Proof.
  assert (H : 1 + 2 <= len (str "abcd")) by (vm_compute; discriminate).
  split; [exact H|].
  apply (setOrbitText_is_minimal (str "abcd") (str "abXd") 1 2 (str "bX"));
    [lia | lia | exact H | reflexivity].
Defined.

End TextDiffExtra.

(** ** Properties of the hooks *)

Module HooksSpec.
Import Hooks.

Section hooks_facts.
Context {V : Type} `{EqDecision V}.

(** *** Setting the entries of an object one after the other *)

Lemma foldl_insert_union (l : list (string * V)) : forall m : gmap string V,
  NoDup l.*1 ->
  foldl (fun m kv => <[kv.1 := kv.2]> m) m l = list_to_map l ∪ m.
Proof.
  induction l as [|[k v] l IH]; intros m Hnd; simpl.
  - by rewrite (left_id_L ∅ (∪)).
  - apply NoDup_cons in Hnd as [Hk Hnd]. rewrite IH by done.
    rewrite <- insert_union_l. symmetry. apply insert_union_r.
    by apply not_elem_of_list_to_map_1.
Qed.

Lemma foldl_entries (obj m : gmap string V) :
  foldl (fun m kv => <[kv.1 := kv.2]> m) m (entries obj) = obj ∪ m.
Proof.
  unfold entries.
  rewrite foldl_insert_union by apply NoDup_fst_map_to_list.
  by rewrite list_to_map_to_list.
Qed.

Lemma foldl_update_lookup (l : list (string * option V)) :
  forall (m : gmap string V) k,
  NoDup l.*1 ->
  foldl (fun m kv =>
           match kv.2 with
           | Some propValue => <[kv.1 := propValue]> m
           | None => m
           end) m l !! k
  = match (list_to_map l : gmap string (option V)) !! k with
    | Some (Some v) => Some v
    | _ => m !! k
    end.
Proof.
  induction l as [|[k0 ov0] l IH]; intros m k Hnd; simpl; [done|].
  apply NoDup_cons in Hnd as [Hk Hnd]. rewrite IH by done.
  destruct (decide (k = k0)) as [->|Hne].
  - rewrite lookup_insert_eq.
    rewrite (not_elem_of_list_to_map_1 _ _ Hk).
    destruct ov0; [by rewrite lookup_insert_eq | done].
  - rewrite lookup_insert_ne by done.
    destruct (list_to_map l !! k) as [[v|]|]; try done;
      destruct ov0; by rewrite ?lookup_insert_ne.
Qed.

(** *** The loop and the test of [getSnapshot] *)






(** *** [useOrbit] *)


(** *** [useOrbitObject] *)


(** The mount effect fills an empty map with the properties of the initial
    value and leaves any other map alone; [updateObject] then sets the
    properties of the update that are not [undefined] and keeps every other
    property. *)
Theorem useOrbitObject_partial_update (initialValue map : gmap string V)
    (updates : gmap string (option V)) (k : string) :
  mountEffect initialValue ∅ = initialValue
  /\ (map <> ∅ -> mountEffect initialValue map = map)
  /\ updateObject updates map !! k
     = match updates !! k with
       | Some (Some v) => Some v
       | _ => map !! k
       end
  /\ updateObject updates (mountEffect initialValue ∅) !! k
     = match updates !! k with
       | Some (Some v) => Some v
       | _ => initialValue !! k
       end.
Proof.
  assert (Hmount : mountEffect initialValue ∅ = initialValue).
  { unfold mountEffect. rewrite decide_True by apply map_size_empty.
    rewrite foldl_entries. by rewrite (right_id_L ∅ (∪)). }
  assert (Hupd : forall m : gmap string V,
            updateObject updates m !! k
            = match updates !! k with
              | Some (Some v) => Some v
              | _ => m !! k
              end).
  { intros m. unfold updateObject, entries.
    rewrite foldl_update_lookup by apply NoDup_fst_map_to_list.
    by rewrite list_to_map_to_list. }
  split_and!; [done | | apply Hupd | rewrite Hmount; apply Hupd].
  intros Hne. unfold mountEffect. rewrite decide_False; [done|].
  by rewrite map_size_empty_iff.
Qed.
End hooks_facts.


Lemma useOrbitObject_partial_update_witness :
  ({[ "name" := "Bob" ]} : gmap string string) <> ∅
  /\ mountEffect ({[ "name" := "Alice" ]} : gmap string string)
       {[ "name" := "Bob" ]}
     = {[ "name" := "Bob" ]}.
Proof.
  assert (H : ({[ "name" := "Bob" ]} : gmap string string) <> ∅).
  { apply insert_non_empty. }
  split; [exact H|].
  destruct (useOrbitObject_partial_update
              ({[ "name" := "Alice" ]} : gmap string string)
              {[ "name" := "Bob" ]} ∅ "name") as (_ & Hkeep & _).
  apply (Hkeep H).
Defined.

End HooksSpec.

(** ** Properties of the IndexedDB adapter *)

Module IndexedDBSpec.
Import IndexedDB.

Lemma stored_request e w id : stored (request e w) id = stored w id.
Proof. done. Qed.

(** [await this.init()] succeeds unless an earlier open failed, and leaves
    what is stored as it was. *)
Lemma awaitInit_ok w :
  initPromise (adapter w) <> Some Rejected ->
  exists w1,
    awaitInit true w = (true, w1)
    /\ (forall id, stored w1 id = stored w id)
    /\ default ∅ (documents w1) = default ∅ (documents w)
    /\ initPromise (adapter w1) <> Some Rejected
    /\ (consistent w -> db (adapter w1) = true /\ consistent w1)
    /\ requests w1
       = requests w
         ++ (if db (adapter w) then []
             else match initPromise (adapter w) with
                  | None => [IdbOpen]
                  | _ => []
                  end).
Proof.
  intros Hrej. unfold awaitInit, initCall, consistent.
  destruct w as [[d [[]|]] docs reqs]; simpl in *; try done;
    destruct d; simpl; eexists; (split; [reflexivity|]); simpl;
    split_and!; try done; try (by rewrite app_nil_r);
    try (intros id; unfold stored; simpl; by destruct docs);
    try (by destruct docs);
    try (intros [H1 H2]; split; [|split]; try done; by (apply H1 || apply H2));
    try (intros [H1 H2]; exfalso; by (discriminate (H1 eq_refl)
                                      || discriminate (H2 eq_refl))).
Qed.

Lemma load_spec w id :
  initPromise (adapter w) <> Some Rejected ->
  exists w1,
    load true true id w
    = (Loaded (match stored w id with
               | Some (StoredBytes state) => Some state
               | _ => None
               end), w1)
    /\ (forall id', stored w1 id' = stored w id')
    /\ initPromise (adapter w1) <> Some Rejected.
Proof.
  intros Hrej. destruct (awaitInit_ok w Hrej) as (w1 & Hw & Hst & _ & Hr & _).
  unfold load. rewrite Hw. eexists. split; [|split].
  - rewrite stored_request, Hst. reflexivity.
  - intros id'. by rewrite stored_request.
  - done.
Qed.

Lemma save_spec w id state :
  initPromise (adapter w) <> Some Rejected ->
  exists w1,
    save true true id state w = (Done, w1)
    /\ stored w1 id = Some (StoredBytes state)
    /\ (forall id', id' <> id -> stored w1 id' = stored w id')
    /\ initPromise (adapter w1) <> Some Rejected.
Proof.
  intros Hrej. destruct (awaitInit_ok w Hrej) as (w1 & Hw & Hst & Hd & Hr & _).
  unfold save. rewrite Hw. eexists. split; [reflexivity|]. split_and!.
  - unfold stored. simpl. by rewrite lookup_insert_eq.
  - intros id' Hne. unfold stored at 1. simpl.
    rewrite lookup_insert_ne by done. rewrite <- Hst. unfold stored.
    by destruct (documents w1).
  - done.
Qed.

Lemma delete_spec w id :
  initPromise (adapter w) <> Some Rejected ->
  exists w1,
    delete true true id w = (Done, w1)
    /\ stored w1 id = None
    /\ (forall id', id' <> id -> stored w1 id' = stored w id')
    /\ initPromise (adapter w1) <> Some Rejected.
Proof.
  intros Hrej. destruct (awaitInit_ok w Hrej) as (w1 & Hw & Hst & Hd & Hr & _).
  unfold delete. rewrite Hw. eexists. split; [reflexivity|]. split_and!.
  - unfold stored. simpl. by rewrite lookup_delete_eq.
  - intros id' Hne. unfold stored at 1. simpl.
    rewrite lookup_delete_ne by done. rewrite <- Hst. unfold stored.
    by destruct (documents w1).
  - done.
Qed.

(** What is saved is what is loaded: with a database that opens and
    requests that succeed, [save] resolves, a [load] of the same id then
    gives the saved bytes, also after [dispose()] and from a new adapter, a
    second [save] replaces the first, and the other ids are as before. *)
Theorem save_then_load w (id id' : string) (state state' : list Byte.byte) :
  initPromise (adapter w) <> Some Rejected ->
  (save true true id state w).1 = Done
  /\ (load true true id (save true true id state w).2).1
     = Loaded (Some state)
  /\ (load true true id (dispose (save true true id state w).2)).1
     = Loaded (Some state)
  /\ (load true true id
        (withAdapter newAdapter (save true true id state w).2)).1
     = Loaded (Some state)
  /\ (load true true id
        (save true true id state' (save true true id state w).2).2).1
     = Loaded (Some state')
  /\ (id' <> id ->
      stored (save true true id state w).2 id' = stored w id').
Proof.
  intros Hrej.
  destruct (save_spec w id state Hrej) as (w1 & Hs & Hid & Hother & Hr1).
  rewrite Hs. cbn [fst snd]. split_and!; try done.
  - destruct (load_spec w1 id Hr1) as (w2 & -> & _). simpl. by rewrite Hid.
  - assert (Hr : initPromise (adapter (dispose w1)) <> Some Rejected).
    { unfold dispose. by destruct (db (adapter w1)). }
    destruct (load_spec (dispose w1) id Hr) as (w2 & -> & _). simpl.
    assert (Hst : stored (dispose w1) id = stored w1 id).
    { unfold dispose. by destruct (db (adapter w1)). }
    by rewrite Hst, Hid.
  - destruct (load_spec (withAdapter newAdapter w1) id) as (w2 & -> & _);
      [done|].
    simpl. change (stored (withAdapter newAdapter w1) id) with (stored w1 id).
    by rewrite Hid.
  - destruct (save_spec w1 id state' Hr1) as (w2 & -> & Hid2 & _ & Hr2). simpl.
    destruct (load_spec w2 id Hr2) as (w3 & -> & _). simpl. by rewrite Hid2.
  - apply Hother.
Qed.

Lemma save_then_load_witness :
  initPromise (adapter {| adapter := newAdapter; documents := None;
                          requests := [] |}) <> Some Rejected
  /\ (load true true "test-doc-1"
        (save true true "test-doc-1" [Byte.x01; Byte.x02; Byte.x03]
           {| adapter := newAdapter; documents := None;
              requests := [] |}).2).1
     = Loaded (Some [Byte.x01; Byte.x02; Byte.x03]).
Proof.
  assert (H : initPromise (adapter {| adapter := newAdapter; documents := None;
                                      requests := [] |}) <> Some Rejected)
    by discriminate.
  split; [exact H|].
  apply (save_then_load _ "test-doc-1" "other"
           [Byte.x01; Byte.x02; Byte.x03] [] H).
Defined.

(** [load] gives [null] for an id that is not stored, for a database that
    was never written and for a stored value that is not a [Uint8Array],
    and changes nothing that is stored; [delete] resolves whether or not
    the id is stored, after it the id loads as [null], and the other ids
    are as before. *)
Theorem load_and_delete_missing w (id id' : string) :
  initPromise (adapter w) <> Some Rejected ->
  (load true true id w).1
  = Loaded (match stored w id with
            | Some (StoredBytes state) => Some state
            | _ => None
            end)
  /\ (forall id'', stored (load true true id w).2 id'' = stored w id'')
  /\ (delete true true id w).1 = Done
  /\ (load true true id (delete true true id w).2).1 = Loaded None
  /\ (id' <> id -> stored (delete true true id w).2 id' = stored w id').
Proof.
  intros Hrej.
  destruct (load_spec w id Hrej) as (w1 & Hl & Hst & _).
  destruct (delete_spec w id Hrej) as (w2 & Hd & Hnone & Hother & Hr2).
  rewrite Hl, Hd. cbn [fst snd]. split_and!; try done.
  - destruct (load_spec w2 id Hr2) as (w3 & -> & _). simpl. by rewrite Hnone.
  - apply Hother.
Qed.

Lemma load_and_delete_missing_witness :
  initPromise (adapter {| adapter := newAdapter; documents := None;
                          requests := [] |}) <> Some Rejected
  /\ (load true true "non-existent-doc"
        {| adapter := newAdapter; documents := None; requests := [] |}).1
     = Loaded None.
Proof.
  assert (H : initPromise (adapter {| adapter := newAdapter; documents := None;
                                      requests := [] |}) <> Some Rejected)
    by discriminate.
  split; [exact H|].
  destruct (load_and_delete_missing _ "non-existent-doc" "other" H)
    as (Hl & _).
  rewrite Hl. reflexivity.
Defined.

(** *** Opening the database *)

Lemma initCalls_pending n : forall w,
  db (adapter w) = false -> initPromise (adapter w) = Some Pending ->
  initCalls n w = (replicate n AwaitOpen, w).
Proof.
  induction n as [|n IH]; intros w Hd Hp; simpl; [done|].
  unfold initCall. rewrite Hd, Hp. by rewrite IH.
Qed.

Lemma initCalls_open n : forall w,
  db (adapter w) = true -> initCalls n w = (replicate n HaveDb, w).
Proof.
  induction n as [|n IH]; intros w Hd; simpl; [done|].
  unfold initCall. rewrite Hd. by rewrite IH.
Qed.

(** The open request is shared: however many calls of [init()] are made
    before the database is open, [indexedDB.open] is called once and all of
    them wait for that request; once it has succeeded no call opens
    again. *)
Theorem open_is_deduplicated (n m : nat) w :
  db (adapter w) = false -> initPromise (adapter w) = None ->
  (initCalls (S n) w).1 = replicate (S n) AwaitOpen
  /\ opens (initCalls (S n) w).2 = S (opens w)
  /\ (initCalls m (openSucceeds (initCalls (S n) w).2)).1
     = replicate m HaveDb
  /\ opens (initCalls m (openSucceeds (initCalls (S n) w).2)).2
     = S (opens w).
Proof.
  intros Hd Hp. simpl. unfold initCall at 1 2 3 4. rewrite Hd, Hp.
  rewrite initCalls_pending by done. simpl.
  assert (Ho : opens (request IdbOpen
                        (withAdapter {| db := false;
                                        initPromise := Some Pending |} w))
               = S (opens w)).
  { unfold opens. simpl. rewrite filter_app, length_app. simpl. lia. }
  rewrite initCalls_open by done. simpl. split_and!; try done.
Qed.

Lemma open_is_deduplicated_witness :
  db newAdapter = false
  /\ opens (initCalls 10 {| adapter := newAdapter; documents := None;
                            requests := [] |}).2 = 1%nat.
Proof.
  split; [reflexivity|].
  apply (open_is_deduplicated 9 0
           {| adapter := newAdapter; documents := None; requests := [] |}
           eq_refl eq_refl).
Defined.

Lemma perform_rejected c w :
  db (adapter w) = false -> initPromise (adapter w) = Some Rejected ->
  perform c w
  = (if isDispose c then Done else Failed "Failed to open IndexedDB", w).
Proof.
  intros Hd Hp.
  destruct c; simpl; unfold load, save, delete, dispose, awaitInit, initCall;
    by rewrite Hd, ?Hp.
Qed.

(** A failed open is never retried: after the open request of a new
    adapter has failed, every later [load], [save] and [delete] is rejected
    with "Failed to open IndexedDB" whatever the database would now answer,
    [dispose()] does not reset the adapter, and no further request is
    made. *)
Theorem failed_open_is_sticky w (cs : list Call) :
  db (adapter w) = false -> initPromise (adapter w) = None ->
  (awaitInit false w).1 = false
  /\ (performAll cs (awaitInit false w).2).1
     = map (fun c => if isDispose c then Done
                     else Failed "Failed to open IndexedDB") cs
  /\ (performAll cs (awaitInit false w).2).2 = (awaitInit false w).2
  /\ opens (performAll cs (awaitInit false w).2).2 = S (opens w).
Proof.
  intros Hd Hp. unfold awaitInit, initCall. rewrite Hd, Hp. simpl.
  set (w1 := withAdapter {| db := false; initPromise := Some Rejected |}
               (request IdbOpen
                  (withAdapter {| db := false; initPromise := Some Pending |}
                     w))).
  assert (Hall : performAll cs w1
                 = (map (fun c => if isDispose c then Done
                                  else Failed "Failed to open IndexedDB") cs,
                    w1)).
  { induction cs as [|c cs IH]; simpl; [done|].
    rewrite perform_rejected by done. by rewrite IH. }
  unfold openFails. simpl. fold w1. rewrite Hall. simpl.
  split_and!; try done.
  unfold opens. simpl. rewrite filter_app, length_app. simpl. lia.
Qed.

Lemma failed_open_is_sticky_witness :
  db newAdapter = false
  /\ (performAll [CallSave true true "doc" []; CallDispose;
                  CallLoad true true "doc"]
        (awaitInit false {| adapter := newAdapter; documents := None;
                            requests := [] |}).2).1
     = [Failed "Failed to open IndexedDB"; Done;
        Failed "Failed to open IndexedDB"].
Proof.
  split; [reflexivity|].
  destruct (failed_open_is_sticky
              {| adapter := newAdapter; documents := None; requests := [] |}
              [CallSave true true "doc" []; CallDispose;
               CallLoad true true "doc"] eq_refl eq_refl)
    as (_ & Hout & _).
  exact Hout.
Defined.

(** [dispose()] closes the connection once and can be repeated; the next
    call opens the database again, once, and finds what was stored. *)
Theorem dispose_then_reuse w (id : string) :
  consistent w -> db (adapter w) = true ->
  closes (dispose w) = S (closes w)
  /\ dispose (dispose w) = dispose w
  /\ adapter (dispose w) = newAdapter
  /\ opens (load true true id (dispose w)).2 = S (opens w)
  /\ (load true true id (dispose w)).1 = (load true true id w).1
  /\ db (adapter (load true true id (dispose w)).2) = true.
Proof.
  intros Hc Hd. unfold dispose at 1 2 3 4 5 6 7. rewrite Hd.
  unfold load, awaitInit, initCall, dispose. simpl. rewrite Hd. simpl.
  split_and!; try done.
  - unfold closes. simpl. rewrite filter_app, length_app. simpl. lia.
  - unfold opens. simpl. rewrite !filter_app, !length_app. simpl. lia.
  - unfold stored. simpl. by destruct (documents w).
Qed.

Lemma dispose_then_reuse_witness :
  db (adapter (save true true "test-doc-reuse" [Byte.x01]
                 {| adapter := newAdapter; documents := None;
                    requests := [] |}).2) = true
  /\ (load true true "test-doc-reuse"
        (dispose (save true true "test-doc-reuse" [Byte.x01]
                    {| adapter := newAdapter; documents := None;
                       requests := [] |}).2)).1
     = Loaded (Some [Byte.x01]).
Proof.
  split; [reflexivity|].
  destruct (dispose_then_reuse
              (save true true "test-doc-reuse" [Byte.x01]
                 {| adapter := newAdapter; documents := None;
                    requests := [] |}).2 "test-doc-reuse")
    as (_ & _ & _ & _ & Hl & _); [by split | reflexivity |].
  rewrite Hl. reflexivity.
Defined.

End IndexedDBSpec.

(** ** Properties of the example server *)

Module ServerSpec.
Import Server.

(** The room of a connection is never the empty string: without a URL, with
    an empty URL and with a URL of one character it is "default", otherwise
    it is the URL without its first character; so "/default" and "/" name
    the same room. *)
Theorem getDocName_never_empty :
  (forall url, getDocName url <> "")
  /\ (forall c name, name <> "" -> getDocName (Some (String c name)) = name)
  /\ (forall c, getDocName (Some (String c "")) = "default")
  /\ getDocName (Some "") = "default"
  /\ getDocName None = "default"
  /\ getDocName (Some "/default") = getDocName (Some "/").
Proof.
  split_and!; try done.
  - intros [u|]; [|done]. unfold getDocName. by case_decide.
  - intros c name Hne. unfold getDocName. simpl. by rewrite decide_False.
Qed.

Lemma getDocName_never_empty_witness :
  "my-app" <> "" /\ getDocName (Some "/my-app") = "my-app".
Proof.
  assert (H : "my-app" <> "") by discriminate.
  split; [exact H|].
  destruct getDocName_never_empty as (_ & Hname & _).
  apply (Hname _ "my-app" H).
Defined.

Section server_facts.
Variable Doc : Type.
Variable newDoc : Doc.
Variable applyUpdate : list Byte.byte -> Doc -> Doc.
Variable encodeStateAsUpdate : Doc -> list Byte.byte.

Lemma broadcast_fold websocket message (ready : nat -> bool) members :
  forall st : State Doc,
  sent (foldl (fun acc client =>
                 if bool_decide (client <> websocket) && ready client
                 then send client message acc
                 else acc) st members)
  = sent st
    ++ map (fun c => (c, message))
         (filter (fun c => c <> websocket /\ ready c = true) members)
  /\ docs (foldl (fun acc client =>
                    if bool_decide (client <> websocket) && ready client
                    then send client message acc
                    else acc) st members) = docs st
  /\ connections (foldl (fun acc client =>
                           if bool_decide (client <> websocket)
                              && ready client
                           then send client message acc
                           else acc) st members) = connections st.
Proof.
  induction members as [|c members IH]; intros st; simpl.
  - by rewrite app_nil_r.
  - rewrite filter_cons.
    destruct (decide (c <> websocket)) as [Hc|Hc];
      destruct (ready c) eqn:Hr; simpl.
    + rewrite bool_decide_eq_true_2 by done. simpl.
      rewrite decide_True by done.
      destruct (IH (send c message st)) as (-> & -> & ->). simpl.
      by rewrite <- app_assoc.
    + rewrite andb_false_r. rewrite decide_False by (by intros [_ ?]).
      apply IH.
    + rewrite bool_decide_eq_false_2 by done. simpl.
      rewrite decide_False by (by intros [? _]). apply IH.
    + rewrite andb_false_r. rewrite decide_False by (by intros [_ ?]).
      apply IH.
Qed.

(** The server relays a message to the other sockets of the room that are
    open, in the order they joined, and to no one else: not to the sender,
    not to a socket that is not open, not to another room. Only a message
    whose first byte is 0, whose second is 0, 1 or 2 and that has a payload
    is applied to the document of the room; every message is relayed. *)
Theorem relay_to_the_others (websocket : nat) (room : string)
    (message : list Byte.byte) (ready : nat -> bool) (st : State Doc)
    (doc : Doc) (members : list nat) :
  docs st !! room = Some doc ->
  connections st !! room = Some members ->
  sent (onMessage applyUpdate websocket room message ready st)
  = sent st
    ++ map (fun c => (c, message))
         (filter (fun c => c <> websocket /\ ready c = true) members)
  /\ connections (onMessage applyUpdate websocket room message ready st)
     = connections st
  /\ docs (onMessage applyUpdate websocket room message ready st)
     = <[room :=
           if isSyncMessage message && bool_decide (2 < length message)%nat
           then applyUpdate (drop 2 message) doc
           else doc]> (docs st)
  /\ Forall (fun s => s.1 ∈ members /\ s.1 <> websocket
                      /\ ready s.1 = true /\ s.2 = message)
       (drop (length (sent st))
          (sent (onMessage applyUpdate websocket room message ready st))).
Proof.
  intros Hdoc Hmem. unfold onMessage. rewrite Hdoc, Hmem.
  match goal with
  | |- context [foldl ?f ?st1 members] =>
      destruct (broadcast_fold websocket message ready members st1)
        as (H1 & H2 & H3); rewrite H1, H2, H3
  end.
  simpl. split_and!; try done.
  - f_equal. destruct (isSyncMessage message); [|done]. simpl.
    rewrite length_drop.
    destruct (decide (0 < length message - 2)%nat);
      [by rewrite bool_decide_eq_true_2 by lia
      | by rewrite bool_decide_eq_false_2 by lia].
  - rewrite drop_app_length. apply Forall_fmap, Forall_forall.
    intros c Hc. apply list_elem_of_filter in Hc as [[? ?] ?]. done.
Qed.

(** A socket that joins a room is sent the state the room has at that
    moment, behind the header [0, 0]. When the last socket of a room
    closes, the room and its document are dropped, and the next socket to
    join gets the state of a new document; while another socket stays, the
    document is kept. *)
Theorem room_is_dropped_when_empty (websocket joiner : nat)
    (url : option string) (st : State Doc) (doc : Doc) (members : list nat) :
  docs st !! getDocName url = Some doc ->
  connections st !! getDocName url = Some members ->
  sent (onConnection newDoc encodeStateAsUpdate joiner url st)
  = sent st ++ [(joiner, Byte.x00 :: Byte.x00 :: encodeStateAsUpdate doc)]
  /\ connections (onConnection newDoc encodeStateAsUpdate joiner url st)
     !! getDocName url = Some (setAdd joiner members)
  /\ (filter (fun c => c <> websocket) members = [] ->
      docs (onClose websocket (getDocName url) st) !! getDocName url
      = None
      /\ connections (onClose websocket (getDocName url) st)
         !! getDocName url = None
      /\ sent (onConnection newDoc encodeStateAsUpdate joiner url
                 (onClose websocket (getDocName url) st))
         = sent st
           ++ [(joiner,
                Byte.x00 :: Byte.x00 :: encodeStateAsUpdate newDoc)])
  /\ (filter (fun c => c <> websocket) members <> [] ->
      docs (onClose websocket (getDocName url) st) !! getDocName url
      = Some doc
      /\ connections (onClose websocket (getDocName url) st)
         !! getDocName url
         = Some (filter (fun c => c <> websocket) members)).
Proof.
  intros Hdoc Hmem. unfold onConnection, onClose.
  generalize dependent (getDocName url). intros room Hdoc Hmem.
  rewrite Hdoc, Hmem. cbn [docs connections sent send]. rewrite ?Hdoc, ?Hmem.
  split_and!.
  - done.
  - by rewrite lookup_insert_eq.
  - intros Hlast. rewrite Hlast. simpl.
    rewrite !lookup_delete_eq. simpl. by rewrite !lookup_insert_eq.
  - intros Hrest. rewrite decide_False by (by rewrite length_zero_iff_nil).
    cbn [docs connections sent send]. by rewrite lookup_insert_eq.
Qed.
End server_facts.

Lemma relay_to_the_others_witness :
  docs (onConnection [] logEncode 2 (Some "/room")
          (onConnection [] logEncode 1 (Some "/room")
             (@start (list (list Byte.byte))))) !! "room" = Some []
  /\ drop 2
       (sent (onMessage logApply 1 "room"
                [Byte.x00; Byte.x02; Byte.x07] (fun _ => true)
                (onConnection [] logEncode 2 (Some "/room")
                   (onConnection [] logEncode 1 (Some "/room")
                      (@start (list (list Byte.byte)))))))
     = [(2%nat, [Byte.x00; Byte.x02; Byte.x07])].
Proof.
  assert (H1 : docs (onConnection [] logEncode 2 (Some "/room")
                       (onConnection [] logEncode 1 (Some "/room")
                          (@start (list (list Byte.byte))))) !! "room"
               = Some []) by reflexivity.
  assert (H2 : connections
                 (onConnection [] logEncode 2 (Some "/room")
                    (onConnection [] logEncode 1 (Some "/room")
                       (@start (list (list Byte.byte))))) !! "room"
               = Some [1%nat; 2%nat]) by reflexivity.
  split; [exact H1|].
  destruct (relay_to_the_others _ logApply 1 "room"
              [Byte.x00; Byte.x02; Byte.x07] (fun _ => true) _ _ _ H1 H2)
    as (Hsent & _).
  rewrite Hsent. reflexivity.
Defined.

Lemma room_is_dropped_when_empty_witness :
  docs (onConnection [] logEncode 1 (Some "/room")
          (@start (list (list Byte.byte)))) !! getDocName (Some "/room")
  = Some []
  /\ docs (onClose 1 (getDocName (Some "/room"))
             (onConnection [] logEncode 1 (Some "/room")
                (@start (list (list Byte.byte)))))
     !! getDocName (Some "/room") = None.
Proof.
  assert (H1 : docs (onConnection [] logEncode 1 (Some "/room")
                       (@start (list (list Byte.byte))))
               !! getDocName (Some "/room") = Some []) by reflexivity.
  assert (H2 : connections
                 (onConnection [] logEncode 1 (Some "/room")
                    (@start (list (list Byte.byte))))
               !! getDocName (Some "/room") = Some [1%nat]) by reflexivity.
  split; [exact H1|].
  destruct (room_is_dropped_when_empty _ [] logEncode 1 2 (Some "/room")
              _ _ _ H1 H2) as (_ & _ & Hlast & _).
  apply Hlast. reflexivity.
Defined.

End ServerSpec.
